(** * The LilyPond music-item reader of Frescobaldi ([ly/music/items.py])

    A shallow embedding of [Reader] (its [set_language], [consume] and
    [read] methods, with the local [factory] of [read]) and of the item
    classes it instantiates, followed by the properties of the reader.

    The token source ([ly.document.Source]), the token classes ([ly.lex],
    [ly.lex.lilypond]) and the pitch tables ([ly.pitch]) are imported by
    [items.py] but are not part of it; they are modelled as far as the
    reader uses them. *)

From Stdlib Require Import ZArith QArith Lia Ascii String.
From stdpp Require Import base list strings gmap.

Local Open Scope string_scope.
Local Open Scope list_scope.

(** ** Tokens: [ly.lex] and [ly.lex.lilypond] *)

Module lex.

(** Modelled from the spec: the token classes of [ly.lex] and
    [ly.lex.lilypond], a closed set of classification tags, of which
    these are the ones [items.py] names.  [Note], [Rest], [Skip],
    [Spacer] and [Q] are the subclasses of [MusicItem] that [read]
    compares [t.__class__] with; the constructor [MusicItem] stands for
    an instance of any other class below [MusicItem], and [Token] for an
    instance of a class the reader has no test for. *)
Inductive TokenClass : Set :=
| Token | Space | Character
| Comment | BlockCommentStart
| StringStart
| MusicItem | Note | Rest | Skip | Spacer | Q
| Octave | Accidental | OctaveCheck
| Duration | SchemeStart.

#[global] Instance TokenClass_eq_dec : EqDecision TokenClass.
Proof. solve_decision. Defined.

(** Modelled from the spec: the class hierarchy behind [isinstance].
    Every class derives from [Token], the five music items from
    [MusicItem], and [BlockCommentStart] from [Comment]; the other
    classes are unrelated. *)
Definition issubclass (c base : TokenClass) : bool :=
  bool_decide (c = base) ||
  match base with
  | Token => true
  | MusicItem =>
      match c with
      | Note | Rest | Skip | Spacer | Q => true
      | _ => false
      end
  | Comment => bool_decide (c = BlockCommentStart)
  | _ => false
  end.

(** Modelled from the spec: a token is a (unicode) string carrying its
    class and its position in the text. *)
Record token : Set := Tok { tcls : TokenClass; ttext : string; tpos : nat }.

#[global] Instance token_eq_dec : EqDecision token.
Proof. solve_decision. Defined.

End lex.

Abbreviation Tok := lex.Tok.
Abbreviation token := lex.token.
Abbreviation tcls := lex.tcls.
Abbreviation ttext := lex.ttext.

(** The variable [t] of [read] holds [None] or a token. *)
Definition isinstance (t : option token) (base : lex.TokenClass) : bool :=
  match t with
  | None => false
  | Some tok => lex.issubclass (tcls tok) base
  end.

(** Truth value of [t]: [None] is false, and a token, being a string, is
    true unless it is empty. *)
Definition truth (t : option token) : bool :=
  match t with
  | None => false
  | Some tok => negb (String.eqb (ttext tok) EmptyString)
  end.

(** ** The token source: [ly.document.Source] *)

(** Modelled from the spec: the token source is an iterator over the
    tokens that exposes the nesting depth of its lexer state
    ([source.state.depth()]).  [upcoming] lists the tokens still to be
    produced, each with the depth the state reports once that token has
    been produced; [depth] is the depth reported now. *)
Record Source : Set := { depth : nat; upcoming : list (token * nat) }.

(** One step of the iterator; [None] is [StopIteration]. *)
Definition next (s : Source) : option (token * Source) :=
  match upcoming s with
  | [] => None
  | (t, d) :: l => Some (t, {| depth := d; upcoming := l |})
  end.

(** ** Pitches: [ly.pitch] *)

(** Modelled from the spec: a pitch has a note name (diatonic step), an
    alteration, an octave number, an accidental (token) and an optional
    octave-check value.  A pitch is built from the pair a pitch-name
    reader returns (the call of [Pitch] with that pair unpacked), the
    other fields keeping their defaults. *)
Record Pitch : Set := {
  note : Z;
  alter : Q;
  octave : Z;
  accidental : option token;
  octavecheck : option Z
}.

Definition Pitch_of (r : Z * Q) : Pitch :=
  {| note := r.1; alter := r.2; octave := 0%Z;
     accidental := None; octavecheck := None |}.

Fixpoint count (c : Ascii.ascii) (s : string) : Z :=
  match s with
  | EmptyString => 0
  | String a s' => (if Ascii.eqb a c then 1 else 0) + count c s'
  end%Z.

(** Modelled from the spec: [ly.pitch.octaveToNum] decodes a run of octave
    marks, each ['] raising by one octave and each [,] lowering by one. *)
Definition octaveToNum (t : token) : Z :=
  (count "'"%char (ttext t) - count ","%char (ttext t))%Z.

(** Modelled from the spec: what [items.py] uses of the module
    [ly.pitch], taken as a parameter of the reader.  [pitchInfo] holds
    the names of the languages of the pitch table, and
    [pitchReader language] maps a note name to a pair (step, alteration)
    or to a false value ([None] here) when the name is not one of the
    language. *)
Record LyPitch : Type := {
  pitchInfo : gset string;
  pitchReader : string -> token -> option (Z * Q)
}.

(** ** The items *)

(** The classes defined in [items.py]. *)
Inductive ItemClass : Set :=
| Item | Token | Container | Duration | Durable | Chord | Note | Skip
| Rest | Q | Music | SchemeValue | StringValue | Comment.

#[global] Instance ItemClass_eq_dec : EqDecision ItemClass.
Proof. solve_decision. Defined.

(** The [Duration] object of a durable item; the reader only gives it a
    list of tokens. *)
Record DurationObj : Set := { dur_tokens : list token }.

(** An instance of one of the item classes.  The fields are the
    attributes the reader assigns; an attribute that was never assigned
    reads as the class default ([None], and [()] for [tokens]).  The
    [document] attribute is never assigned by the reader and is left
    out. *)
Record ItemObj : Set := {
  cls : ItemClass;
  token_ : option token;
  tokens : list token;
  duration : option DurationObj;
  pitch : option Pitch;
  octave_token : option token;
  accidental_token : option token;
  octavecheck_token : option token;
  value : option string
}.

(** [cls()] followed by [item.token = token]. *)
Definition new_item (c : ItemClass) (tok : token) : ItemObj :=
  {| cls := c; token_ := Some tok; tokens := []; duration := None;
     pitch := None; octave_token := None; accidental_token := None;
     octavecheck_token := None; value := None |}.

Definition set_tokens (i : ItemObj) (l : list token) : ItemObj :=
  {| cls := cls i; token_ := token_ i; tokens := l; duration := duration i;
     pitch := pitch i; octave_token := octave_token i;
     accidental_token := accidental_token i;
     octavecheck_token := octavecheck_token i; value := value i |}.

Definition set_duration (i : ItemObj) (d : DurationObj) : ItemObj :=
  {| cls := cls i; token_ := token_ i; tokens := tokens i;
     duration := Some d;
     pitch := pitch i; octave_token := octave_token i;
     accidental_token := accidental_token i;
     octavecheck_token := octavecheck_token i; value := value i |}.

Definition set_value (i : ItemObj) (v : string) : ItemObj :=
  {| cls := cls i; token_ := token_ i; tokens := tokens i;
     duration := duration i;
     pitch := pitch i; octave_token := octave_token i;
     accidental_token := accidental_token i;
     octavecheck_token := octavecheck_token i; value := Some v |}.

Definition set_pitch (i : ItemObj) (p : Pitch) : ItemObj :=
  {| cls := cls i; token_ := token_ i; tokens := tokens i;
     duration := duration i;
     pitch := Some p; octave_token := octave_token i;
     accidental_token := accidental_token i;
     octavecheck_token := octavecheck_token i; value := value i |}.

(** The pitch object [p] is the one stored in [item.pitch]; an assignment
    to a field of [p] is an update of [item.pitch]. *)
Definition map_pitch (f : Pitch -> Pitch) (i : ItemObj) : ItemObj :=
  {| cls := cls i; token_ := token_ i; tokens := tokens i;
     duration := duration i;
     pitch := f <$> pitch i; octave_token := octave_token i;
     accidental_token := accidental_token i;
     octavecheck_token := octavecheck_token i; value := value i |}.

(** [p.octave = ly.pitch.octaveToNum(t); item.octave_token = t] *)
Definition set_octave (i : ItemObj) (t : token) : ItemObj :=
  let i' := map_pitch (fun p =>
    {| note := note p; alter := alter p; octave := octaveToNum t;
       accidental := accidental p; octavecheck := octavecheck p |}) i in
  {| cls := cls i'; token_ := token_ i'; tokens := tokens i';
     duration := duration i';
     pitch := pitch i'; octave_token := Some t;
     accidental_token := accidental_token i';
     octavecheck_token := octavecheck_token i'; value := value i' |}.

(** [item.accidental_token = p.accidental = t] *)
Definition set_accidental (i : ItemObj) (t : token) : ItemObj :=
  let i' := map_pitch (fun p =>
    {| note := note p; alter := alter p; octave := octave p;
       accidental := Some t; octavecheck := octavecheck p |}) i in
  {| cls := cls i'; token_ := token_ i'; tokens := tokens i';
     duration := duration i';
     pitch := pitch i'; octave_token := octave_token i';
     accidental_token := Some t;
     octavecheck_token := octavecheck_token i'; value := value i' |}.

(** [p.octavecheck = ly.pitch.octaveToNum(t); item.octavecheck_token = t] *)
Definition set_octavecheck (i : ItemObj) (t : token) : ItemObj :=
  let i' := map_pitch (fun p =>
    {| note := note p; alter := alter p; octave := octave p;
       accidental := accidental p;
       octavecheck := Some (octaveToNum t) |}) i in
  {| cls := cls i'; token_ := token_ i'; tokens := tokens i';
     duration := duration i';
     pitch := pitch i'; octave_token := octave_token i';
     accidental_token := accidental_token i';
     octavecheck_token := Some t; value := value i' |}.

(** ** The reader *)

Record Reader : Set := { source : Source; language : string }.

(** [Reader.__init__] *)
Definition init (src : Source) : Reader :=
  {| source := src; language := "nederlands" |}.

(** How a run of [read] ends: the generator returns ([StopIteration]), or
    it is still running when the model's step budget is used up. *)
Inductive Terminal : Set := StopIteration | Running.

Section WithPitch.

Variable ly_pitch : LyPitch.

(** [Reader.set_language]: returns [True] and sets the attribute when
    the language is in the table; otherwise falls off the end of the
    function, which returns Python's [None]. *)
Definition set_language (self : Reader) (lang : string)
  : option bool * Reader :=
  if decide (lang ∈ pitchInfo ly_pitch)
  then (Some true, {| source := source self; language := lang |})
  else (None, self).

(** [Reader.consume], run to its end as [factory] does with [tuple]:
    [entry] is the depth read before the loop, [l] and [d] the state of
    the source.  Returns the tokens yielded and the source afterwards.
    (The [print] statement of the loop is not modelled.) *)
Fixpoint consume_loop (entry : nat) (d : nat) (l : list (token * nat))
  : list token * Source :=
  match l with
  | [] => ([], {| depth := d; upcoming := [] |})
  | (t, d') :: l' =>
      if (d' <? entry)%nat
      then ([t], {| depth := d'; upcoming := l' |})
      else let '(ts, s) := consume_loop entry d' l' in (t :: ts, s)
  end.

Definition consume (s : Source) : list token * Source :=
  consume_loop (depth s) (depth s) (upcoming s).

(** The local function [factory] of [read]. *)
Definition factory (c : ItemClass) (tok : token) (consume_ : bool)
    (s : Source) : ItemObj * Source :=
  let item := new_item c tok in
  if consume_
  then let '(ts, s') := consume s in (set_tokens item ts, s')
  else (item, s).

(** The loop [for t in self.source] that collects the octave, the
    accidental and the octave check of a note.  [t] is the variable [t]
    ([None] before the first token is read); the result holds the item,
    [t] and the source after the loop. *)
Fixpoint pitch_loop (item : ItemObj) (t : option token) (d : nat)
    (l : list (token * nat)) : ItemObj * option token * Source :=
  match l with
  | [] => (item, t, {| depth := d; upcoming := [] |})
  | (tok, d') :: l' =>
      let t' := Some tok in
      if isinstance t' lex.Octave
      then pitch_loop (set_octave item tok) t' d' l'
      else if isinstance t' lex.Accidental
      then pitch_loop (set_accidental item tok) t' d' l'
      else if isinstance t' lex.OctaveCheck
      then (set_octavecheck item tok, t', {| depth := d'; upcoming := l' |})
      else if negb (isinstance t' lex.Space)
      then (item, t', {| depth := d'; upcoming := l' |})
      else pitch_loop item t' d' l'
  end.

(** The loop [for t in self.source] that appends duration tokens to
    [d.tokens] ([ds] here). *)
Fixpoint duration_loop (ds : list token) (t : option token) (d : nat)
    (l : list (token * nat)) : list token * option token * Source :=
  match l with
  | [] => (ds, t, {| depth := d; upcoming := [] |})
  | (tok, d') :: l' =>
      let t' := Some tok in
      if isinstance t' lex.Duration
      then duration_loop (ds ++ [tok]) t' d' l'
      else if negb (isinstance t' lex.Space)
      then (ds, t', {| depth := d'; upcoming := l' |})
      else duration_loop ds t' d' l'
  end.

(** The first part of the body of [while isinstance(t, MusicItem)]:
    the choice of the item by the class of [t].  [item] is [None] only
    for a note whose name [pitchReader] does not know, and then [t] is
    not changed. *)
Definition music_item (lang : string) (tok : token) (s : Source)
  : option ItemObj * option token * Source :=
  if bool_decide (tcls tok = lex.Note) then
    match pitchReader ly_pitch lang tok with
    | Some r =>
        let item := set_pitch (factory Note tok false s).1 (Pitch_of r) in
        let '(item', t', s') := pitch_loop item None (depth s) (upcoming s) in
        (Some item', t', s')
    | None => (None, Some tok, s)
    end
  else if bool_decide (tcls tok = lex.Rest) then
    (Some (factory Rest tok false s).1, None, s)
  else if bool_decide (tcls tok = lex.Skip)
          || bool_decide (tcls tok = lex.Spacer) then
    (Some (factory Skip tok false s).1, None, s)
  else
    (Some (factory Q tok false s).1, None, s).

(** The second part of the body, [if item: ...], up to [yield item].
    [node.WeakNode], the base class of the items, is not among the
    sources; an item object is taken to be true, without which [read]
    would yield no durable item at all. *)
Definition wait_for_duration (item : ItemObj) (t : option token)
    (s : Source) : ItemObj * option token * Source :=
  if negb (truth t) || isinstance t lex.Duration then
    let ds := match t with
              | Some tok => if truth t then [tok] else []
              | None => []
              end in
    let '(ds', t', s') := duration_loop ds t (depth s) (upcoming s) in
    (set_duration item {| dur_tokens := ds' |}, t', s')
  else
    (set_duration item {| dur_tokens := [] |}, t, s).

(** [t.startswith('\\')], the argument being the string of one
    backslash, and [t[1:]]. *)
Definition startswith_backslash (s : string) : bool :=
  match s with
  | String c _ => Ascii.eqb c "\"%char
  | EmptyString => false
  end.

Definition drop_first (s : string) : string :=
  match s with
  | String _ s' => s'
  | EmptyString => EmptyString
  end.

(** [t[1:] if isinstance(t, ly.lex.Character) and t.startswith('\\')
    else t] *)
Definition unescape (t : token) : string :=
  if isinstance (Some t) lex.Character && startswith_backslash (ttext t)
  then drop_first (ttext t)
  else ttext t.

(** [''.join(... for t in item.tokens[:-1])] *)
Definition string_value (ts : list token) : string :=
  foldr String.append EmptyString (unescape <$> removelast ts).

(** The [if]/[elif] chain that ends the body of the outer loop. *)
Definition dispatch (t : option token) (s : Source)
  : option ItemObj * Source :=
  match t with
  | None => (None, s)
  | Some tok =>
      if isinstance t lex.SchemeStart then
        let '(item, s') := factory SchemeValue tok true s in (Some item, s')
      else if isinstance t lex.BlockCommentStart then
        let '(item, s') := factory Comment tok true s in (Some item, s')
      else if isinstance t lex.Comment then
        let '(item, s') := factory Comment tok false s in (Some item, s')
      else if isinstance t lex.StringStart then
        let '(item, s') := factory StringValue tok true s in
        (Some (set_value item (string_value (tokens item))), s')
      else (None, s)
  end.

Definition yield (i : option ItemObj) (k : list ItemObj * Terminal)
  : list ItemObj * Terminal :=
  match i with
  | Some item => (item :: k.1, k.2)
  | None => k
  end.

(** [read], from the test of the [while] loop with [t] just read by the
    outer [for].  Every test of the [while] condition takes one unit of
    [fuel]; the result holds the items yielded so far and how the run
    ended. *)
Fixpoint read_loop (fuel : nat) (lang : string) (t : option token)
    (s : Source) : list ItemObj * Terminal :=
  match fuel with
  | O => ([], Running)
  | S fuel' =>
      match t with
      | Some tok =>
          if isinstance t lex.MusicItem then
            match music_item lang tok s with
            | (Some item, t1, s1) =>
                let '(item', t2, s2) := wait_for_duration item t1 s1 in
                yield (Some item') (read_loop fuel' lang t2 s2)
            | (None, t1, s1) => read_loop fuel' lang t1 s1
            end
          else
            let '(oi, s1) := dispatch t s in
            yield oi
              match next s1 with
              | Some (t', s2) => read_loop fuel' lang (Some t') s2
              | None => ([], StopIteration)
              end
      | None =>
          match next s with
          | Some (t', s2) => read_loop fuel' lang (Some t') s2
          | None => ([], StopIteration)
          end
      end
  end.

(** [Reader.read()], called without argument: the outer loop iterates
    over [self.source], the iterator the inner loops and [consume] read
    from as well. *)
Definition read (fuel : nat) (self : Reader) : list ItemObj * Terminal :=
  match next (source self) with
  | Some (t, s) => read_loop fuel (language self) (Some t) s
  | None => ([], StopIteration)
  end.

End WithPitch.

(** [t] starts a construct that [read] hands to [consume]. *)
Definition opens_construct (t : token) : bool :=
  isinstance (Some t) lex.SchemeStart
  || isinstance (Some t) lex.BlockCommentStart
  || isinstance (Some t) lex.StringStart.

(** The source starts with a token that opens such a construct and runs
    out inside it: no token leaves the depth below the depth the source
    reports at the entry of [consume]. *)
Definition ends_inside_construct (s : Source) : Prop :=
  match upcoming s with
  | [] => False
  | (start, entry) :: body =>
      opens_construct start = true /\
      Forall (fun td => (entry <= td.2)%nat) body
  end.

(** The tokens the reader still has at hand: the token in [t], if any,
    and those the source has not produced yet. *)
Definition at_hand (t : option token) (s : Source) : list token :=
  match t with
  | Some tok => tok :: (upcoming s).*1
  | None => (upcoming s).*1
  end.

(** The token of [item], followed by its [tokens], is a run of
    consecutive tokens of [l]. *)
Definition run_of (item : ItemObj) (l : list token) : Prop :=
  exists (tok : token) (pre post : list token),
    token_ item = Some tok /\ l = pre ++ tok :: tokens item ++ post.

Definition is_space (t : token) : bool := isinstance (Some t) lex.Space.

(** The text of a run of tokens. *)
Definition text_of (ts : list token) : string :=
  foldr String.append EmptyString (ttext <$> ts).

(** The attributes of an item that no loop of [read] changes once
    [factory] has returned. *)
Definition same_head (i j : ItemObj) : Prop :=
  cls i = cls j /\ token_ i = token_ j /\ tokens i = tokens j /\
  duration i = duration j /\ value i = value j.

(** A token of a duration class, which is no whitespace. *)
Definition is_duration_token (t : token) : Prop :=
  isinstance (Some t) lex.Duration = true /\
  isinstance (Some t) lex.Space = false.

(** Every [Note] token of [l] has a name of the language. *)
Definition resolves (P : LyPitch) (lang : string) (l : list token) : Prop :=
  Forall
    (fun tok => tcls tok = lex.Note -> is_Some (pitchReader P lang tok)) l.

(** The steps [read_loop] takes at most from [t] and [s] when the names
    of the notes resolve. *)
Definition steps (t : option token) (s : Source) : nat :=
  2 * length (at_hand t s) + match t with Some _ => 0 | None => 1 end.

(** A caller that tries one language name after the other, as [read]'s
    docstring announces for [\language] and [\include] tokens. *)
Definition set_languages (P : LyPitch) (self : Reader)
    (langs : list string) : Reader :=
  foldl (fun r lang => (set_language P r lang).2) self langs.

(** A token for which no branch of [read] does anything: no music item
    and no start of a Scheme value, a comment or a string. *)
Definition falls_through (t : token) : bool :=
  negb (isinstance (Some t) lex.MusicItem)
  && negb (isinstance (Some t) lex.SchemeStart)
  && negb (isinstance (Some t) lex.Comment)
  && negb (isinstance (Some t) lex.StringStart).

(** The pitch of [item], when it has one, says what the octave,
    accidental and octave-check tokens recorded on the item say. *)
Definition pitch_agrees (item : ItemObj) : Prop :=
  match pitch item with
  | None => True
  | Some p =>
      octave p = from_option octaveToNum 0%Z (octave_token item) /\
      accidental p = accidental_token item /\
      octavecheck p = octaveToNum <$> octavecheck_token item
  end.

(** No attribute of a note on [item]. *)
Definition no_note_attributes (item : ItemObj) : Prop :=
  pitch item = None /\ octave_token item = None /\
  accidental_token item = None /\ octavecheck_token item = None.

(** What the loop over the pitch tokens does to a note for a run of
    octave tokens, accidental tokens and blanks. *)
Definition apply_marks (item : ItemObj) (marks : list token) : ItemObj :=
  foldl
    (fun it m =>
       if isinstance (Some m) lex.Octave then set_octave it m
       else if isinstance (Some m) lex.Accidental then set_accidental it m
       else it)
    item marks.

(** The variable [t] holds nothing that [read] would still act upon. *)
Definition spent (t : option token) : bool :=
  from_option falls_through true t.

(** An octave token, an accidental token or a blank. *)
Definition is_mark (t : token) : bool :=
  isinstance (Some t) lex.Octave
  || isinstance (Some t) lex.Accidental
  || isinstance (Some t) lex.Space.

(** A duration token or a blank. *)
Definition is_duration_or_space (t : token) : bool :=
  isinstance (Some t) lex.Duration || isinstance (Some t) lex.Space.

(** A token that ends both the pitch and the duration of a note. *)
Definition ends_note (t : token) : bool :=
  negb (is_mark t)
  && negb (isinstance (Some t) lex.OctaveCheck)
  && negb (isinstance (Some t) lex.Duration).

(** A token for which [read] builds an item without consuming a run: a
    music item or a comment. *)
Definition makes_item (t : token) : bool :=
  isinstance (Some t) lex.MusicItem || isinstance (Some t) lex.Comment.

(** The class of the item [read] builds for such a token, by the
    branches of the [while] body and of the [if]/[elif] chain. *)
Definition item_class_of (t : token) : ItemClass :=
  match tcls t with
  | lex.Note => Note
  | lex.Rest => Rest
  | lex.Skip | lex.Spacer => Skip
  | lex.MusicItem | lex.Q => Q
  | _ => Comment
  end.

(** The variable [t] holds no token for which an item is still to be
    built. *)
Definition idle (t : option token) : bool :=
  from_option (fun x => negb (makes_item x)) true t.

(** Tokens as the lexer gives them outside Scheme values, block comments
    and strings: none opens such a construct, none is the empty string,
    and every note has a name of the language. *)
Definition plain (P : LyPitch) (lang : string) (l : list token) : Prop :=
  Forall (fun x => opens_construct x = false) l /\
  Forall (fun x => ttext x <> EmptyString) l /\
  resolves P lang l.

(** Two pitch tables with their languages give every [Note] token of
    [l] the same reading. *)
Definition same_reading (P P' : LyPitch) (lang lang' : string)
    (l : list token) : Prop :=
  Forall
    (fun tok =>
       tcls tok = lex.Note ->
       pitchReader P lang tok = pitchReader P' lang' tok) l.

(** The base classes named in the class statements of [items.py].
    ([Item] derives from [node.WeakNode], which is not among the sources
    and is left out.) *)
Definition bases (c : ItemClass) : list ItemClass :=
  match c with
  | Item => []
  | Token | Container | Duration | Durable
  | SchemeValue | StringValue | Comment => [Item]
  | Chord => [Durable; Container]
  | Note | Skip | Rest | Q => [Durable]
  | Music => [Container]
  end.

(** The attributes each class statement gives a default for. *)
Definition class_attributes (c : ItemClass) : list string :=
  match c with
  | Item => ["document"; "tokens"; "token"]
  | Durable => ["duration"]
  | Note => ["pitch"]
  | Music => ["simultaneous"]
  | _ => []
  end.

(** [issubclass], following base classes at most [n] levels up. *)
Fixpoint issubclass_upto (n : nat) (c base : ItemClass) : bool :=
  bool_decide (c = base)
  || match n with
     | O => false
     | S n' => existsb (fun b => issubclass_upto n' b base) (bases c)
     end.

(** No class of [items.py] is more than two levels below [Item]. *)
Definition item_issubclass (c base : ItemClass) : bool :=
  issubclass_upto 2 c base.

Definition item_isinstance (item : ItemObj) (base : ItemClass) : bool :=
  item_issubclass (cls item) base.

(** The class [c] or one of the classes it derives from has a default
    for the attribute [name], so that reading the attribute of an
    instance never fails. *)
Definition has_default (c : ItemClass) (name : string) : bool :=
  existsb
    (fun b => item_issubclass c b && bool_decide (name ∈ class_attributes b))
    [Item; Token; Container; Duration; Durable; Chord; Note; Skip; Rest; Q;
     Music; SchemeValue; StringValue; Comment].

(** The tokens the reader still has at hand, each with the depth the
    source reports once it is produced: the token in [t], if any, after
    which the source is at its present depth, and the tokens to come. *)
Definition at_hand_depth (t : option token) (s : Source)
  : list (token * nat) :=
  match t with
  | Some tok => (tok, depth s) :: upcoming s
  | None => upcoming s
  end.

(** The tokens [taken] after a token that left the source at depth
    [entry], with [post] after them, are what [consume] takes there: all
    that is left when the depth never drops below [entry], and else the
    tokens up to and including the first that brings the depth below
    [entry]. *)
Definition consumed_from (entry : nat) (taken post : list (token * nat))
  : Prop :=
  (Forall (fun td => (entry <= td.2)%nat) taken /\ post = []) \/
  (exists (body : list (token * nat)) (close : token) (dl : nat),
     taken = body ++ [(close, dl)] /\
     Forall (fun td => (entry <= td.2)%nat) body /\
     (dl < entry)%nat).

(** The token of [item] is in [l], and the [tokens] of [item] are the
    tokens that follow it there: those of the whole construct when the
    token opens one, and none otherwise. *)
Definition span_of (item : ItemObj) (l : list (token * nat)) : Prop :=
  exists (tok : token) (entry : nat) (pre taken post : list (token * nat)),
    token_ item = Some tok /\
    l = pre ++ (tok, entry) :: taken ++ post /\
    tokens item = taken.*1 /\
    if opens_construct tok then consumed_from entry taken post
    else taken = [].

(** ** The file names of the exported help: [export-help.py] *)

Module export_help.

(** [s.replace('.', new)]: every dot of [s] gives way to [new]. *)
Fixpoint replace_dot (new s : string) : string :=
  match s with
  | EmptyString => EmptyString
  | String c s' =>
      if Ascii.eqb c "."%char
      then String.append new (replace_dot new s')
      else String c (replace_dot new s')
  end.

(** [make_filename]; [lang] is a string or [None]. *)
Definition make_filename (name : string) (lang : option string) : string :=
  match lang with
  | None => name
  | Some l =>
      if String.eqb l "C" then name
      else replace_dot (String "."%char (String.append l ".")) name
  end.

(** The number of dots of a string. *)
Fixpoint dots (s : string) : nat :=
  match s with
  | EmptyString => 0
  | String c s' => (if Ascii.eqb c "."%char then 1 else 0) + dots s'
  end.

End export_help.

(** ** The numbers of nameless documents: [document.py] *)

Module document.

(** What [setUrl] reads and writes of a [Document]: its url, a [QUrl]
    taken as its string (empty for [QUrl()]), and the number [_num],
    which [__init__] has not assigned yet when it calls [setUrl]. *)
Record Doc : Set := { url : string; num : option nat }.

(** The documents as objects of a heap, and the list [app.documents]
    of the module [app], which is not among the sources.  The signals a
    document emits and the functions of [app] it calls are taken not to
    change urls, numbers or the list. *)
Record App : Type := { heap : gmap nat Doc; documents : list nat }.

(** [QUrl.isEmpty] *)
Definition isEmpty (u : string) : bool := String.eqb u EmptyString.

(** [doc._num for doc in app.documents if doc is not self]; reading the
    number of a document that has none fails. *)
Definition other_nums (a : App) (self : nat) : option (list nat) :=
  mapM (fun l => heap a !! l ≫= num)
    (filter (fun l => l <> self) (documents a)).

(** [Document.setUrl]; the argument is a url or [None]. *)
Definition setUrl (a : App) (self : nat) (u : option string) : option App :=
  _ ← heap a !! self;
  let new_url := default EmptyString u in
  n ← (if isEmpty new_url
        then nums ← other_nums a self; Some (max_list (0 :: nums) + 1)
        else Some 0);
  Some {| heap := <[self := {| url := new_url; num := Some n |}]> (heap a);
          documents := documents a |}.

(** [Document.__init__], as far as the url, the number and
    [app.documents] go: a new object, [setUrl], then
    [app.documents.append(self)].  The call of [load] that ends
    [__init__] reads the file of the url with the encoding given; it
    changes none of the three, and it is not modelled: [init] says what
    [__init__] has done to them when it returns, not that it returns. *)
Definition init (a : App) (u : option string) : option (nat * App) :=
  let self := fresh (dom (heap a)) in
  let a1 :=
    {| heap := <[self := {| url := default EmptyString u; num := None |}]>
                 (heap a);
       documents := documents a |} in
  a2 ← setUrl a1 self u;
  Some (self, {| heap := heap a2; documents := documents a2 ++ [self] |}).

(** [list.remove]: the first occurrence goes; [None] is [ValueError]. *)
Fixpoint remove_first (x : nat) (l : list nat) : option (list nat) :=
  match l with
  | [] => None
  | y :: l' =>
      if decide (x = y) then Some l' else (y ::.) <$> remove_first x l'
  end.

(** [Document.close]: [app.documents.remove(self)]. *)
Definition close (a : App) (self : nat) : option App :=
  l ← remove_first self (documents a);
  Some {| heap := heap a; documents := l |}.

(** What a user does with documents, one step after the other. *)
Inductive Op : Set :=
| New (u : option string)
| SetUrl (self : nat) (u : option string)
| Close (self : nat).

Definition step (a : App) (op : Op) : option App :=
  match op with
  | New u => snd <$> init a u
  | SetUrl self u => setUrl a self u
  | Close self => close a self
  end.

Definition run (a : App) (ops : list Op) : option App :=
  foldl (fun oa op => oa ≫= fun a => step a op) (Some a) ops.

(** The application at its start: no document. *)
Definition start : App := {| heap := ∅; documents := [] |}.

(** The documents of the list [L] are numbered as [setUrl] means it: a
    document has a number, which is 0 exactly when it has a url, and no
    two nameless documents have the same number. *)
Definition numbered (h : gmap nat Doc) (L : list nat) : Prop :=
  NoDup L /\
  (forall l, l ∈ L ->
     exists d n, h !! l = Some d /\ num d = Some n /\
                 (isEmpty (url d) = true <-> n <> 0)) /\
  (forall l1 l2 d1 d2 n,
     l1 ∈ L -> l2 ∈ L -> h !! l1 = Some d1 -> h !! l2 = Some d2 ->
     num d1 = Some n -> num d2 = Some n -> n <> 0 -> l1 = l2).

End document.

(** ** Sample data

    A small pitch table and some token streams, on which the reader is
    run in the examples below. *)

Module sample.

Definition dq : string := String (ascii_of_nat 34) EmptyString.

Fixpoint lookup_name (names : list (string * (Z * QArith_base.Q)))
    (name : string) : option (Z * QArith_base.Q) :=
  match names with
  | [] => None
  | (n, r) :: names' =>
      if String.eqb n name then Some r else lookup_name names' name
  end.

(** Dutch note names: the seven steps, and some [is] and [es] forms. *)
Definition nederlands : list (string * (Z * QArith_base.Q)) :=
  [ ("c", (0%Z, (0 # 1)%Q)); ("d", (1%Z, (0 # 1)%Q)); ("e", (2%Z, (0 # 1)%Q));
    ("f", (3%Z, (0 # 1)%Q)); ("g", (4%Z, (0 # 1)%Q)); ("a", (5%Z, (0 # 1)%Q));
    ("b", (6%Z, (0 # 1)%Q)); ("cis", (0%Z, (1 # 2)%Q)); ("fis", (3%Z, (1 # 2)%Q));
    ("es", (2%Z, (-1 # 2)%Q)); ("bes", (6%Z, (-1 # 2)%Q)) ].

(** English note names. *)
Definition english : list (string * (Z * QArith_base.Q)) :=
  [ ("c", (0%Z, (0 # 1)%Q)); ("d", (1%Z, (0 # 1)%Q)); ("e", (2%Z, (0 # 1)%Q));
    ("f", (3%Z, (0 # 1)%Q)); ("g", (4%Z, (0 # 1)%Q)); ("a", (5%Z, (0 # 1)%Q));
    ("b", (6%Z, (0 # 1)%Q)); ("cs", (0%Z, (1 # 2)%Q)); ("fs", (3%Z, (1 # 2)%Q));
    ("ef", (2%Z, (-1 # 2)%Q)); ("bf", (6%Z, (-1 # 2)%Q)) ].

Definition ly_pitch : LyPitch :=
  {| pitchInfo := {[ "nederlands"; "english" ]};
     pitchReader lang t :=
       if String.eqb lang "english" then lookup_name english (ttext t)
       else lookup_name nederlands (ttext t) |}.

(** A source at depth 1 whose tokens all leave the depth at 1. *)
Definition flat (l : list token) : Source :=
  {| depth := 1; upcoming := (fun t => (t, 1%nat)) <$> l |}.

(** The tokens of the text [# ( + 1 ( * 2 3 ) ) rest] (written here
    with a blank between the tokens) read in a music expression at
    depth 1: the [#] enters the Scheme parser, every opening parenthesis
    enters one more and every closing one leaves it; after the last
    parenthesis the Scheme expression is complete and the depth is back
    at 1. *)
Definition scheme_start : token := Tok lex.SchemeStart "#" 0.

Definition scheme_body : list (token * nat) :=
  [ (Tok lex.Token "(" 1, 3); (Tok lex.Token "+" 2, 3);
    (Tok lex.Space " " 3, 3); (Tok lex.Token "1" 4, 3);
    (Tok lex.Space " " 5, 3); (Tok lex.Token "(" 6, 4);
    (Tok lex.Token "*" 7, 4); (Tok lex.Space " " 8, 4);
    (Tok lex.Token "2" 9, 4); (Tok lex.Space " " 10, 4);
    (Tok lex.Token "3" 11, 4); (Tok lex.Token ")" 12, 3) ]%nat.

Definition scheme_close : token := Tok lex.Token ")" 13.

Definition scheme_rest : list (token * nat) :=
  [ (Tok lex.Space " " 14, 1); (Tok lex.Token "rest" 15, 1) ]%nat.

Definition scheme_source : Source :=
  {| depth := 1;
     upcoming :=
       (scheme_start, 2%nat) :: scheme_body ++ (scheme_close, 1%nat) :: scheme_rest |}.

(** The same text without its last parenthesis: the source ends inside
    the Scheme expression. *)
Definition open_scheme : Source :=
  {| depth := 1; upcoming := (scheme_start, 2%nat) :: scheme_body |}.

(** Some tokens of music: a note, a word that is no Dutch note name, a
    rest, octave marks, an octave check, durations and a blank. *)
Definition note_c : token := Tok lex.Note "c" 0.
Definition note_xyz : token := Tok lex.Note "xyz" 0.
Definition rest_r : token := Tok lex.Rest "r" 9.
Definition octave_up2 : token := Tok lex.Octave "''" 1.
Definition octave_up1 : token := Tok lex.Octave "'" 1.
Definition check_up1 : token := Tok lex.OctaveCheck "='" 1.
Definition dur_4 : token := Tok lex.Duration "4" 3.
Definition dur_dot : token := Tok lex.Duration "." 4.
Definition blank : token := Tok lex.Space " " 5.

(** The tokens of a quoted string that holds [a], an escaped quote and
    [b]: the opening quote enters the string parser and the closing one
    leaves it. *)
Definition string_start : token := Tok lex.StringStart dq 0.

Definition string_body : list (token * nat) :=
  [ (Tok lex.Token "a" 1, 2); (Tok lex.Character (String "\" dq) 2, 2);
    (Tok lex.Token "b" 4, 2) ]%nat.

Definition string_end : token := Tok lex.Token dq 5.

Definition string_source : Source :=
  {| depth := 1;
     upcoming := (string_start, 2%nat) :: string_body ++ [(string_end, 1%nat)] |}.

(** A line comment, a bar check and a block comment between two rests:
    [r % c], a line end, [| %{ x %} r]. *)
Definition line_comment : token := Tok lex.Comment "% c" 2.
Definition bar_check : token := Tok lex.Token "|" 6.
Definition block_start : token := Tok lex.BlockCommentStart "%{" 8.
Definition block_body : list (token * nat) :=
  [ (Tok lex.Comment " x " 10, 2%nat) ].
Definition block_end : token := Tok lex.Comment "%}" 13.

(** An accidental reminder, as in [c'!''4.]. *)
Definition reminder : token := Tok lex.Accidental "!" 2.


(** A session with documents: three are created, the second one with
    a url; the first is closed, the second loses its url, and a
    fourth is created. *)
Definition session : list document.Op :=
  [document.New None; document.New (Some "a.ly"); document.New None;
   document.Close 0; document.SetUrl 1 None; document.New None].

End sample.

(** Membership in a list written out, and its negation. *)
Ltac elem_of_list :=
  rewrite ?list_elem_of_In in *; cbn [In] in *; intuition congruence.

(** ** Properties of [set_language] and [consume] *)

Lemma consume_loop_spec (entry : nat) (l : list (token * nat)) :
  forall d : nat,
  exists taken : list (token * nat),
    l = taken ++ upcoming (consume_loop entry d l).2 /\
    (consume_loop entry d l).1 = taken.*1 /\
    ((Forall (fun td => (entry <= td.2)%nat) taken /\
      upcoming (consume_loop entry d l).2 = []) \/
     (exists pre t d',
        taken = pre ++ [(t, d')] /\
        Forall (fun td => (entry <= td.2)%nat) pre /\
        (d' < entry)%nat /\
        depth (consume_loop entry d l).2 = d')).
Proof.
  induction l as [|[t d'] l IH]; intros d; simpl.
  - exists []. split; [done|]. split; [done|]. left. by split.
  - destruct (d' <? entry)%nat eqn:Hlt.
    + apply Nat.ltb_lt in Hlt. exists [(t, d')]. simpl.
      split; [done|]. split; [done|]. right.
      exists [], t, d'. repeat split; [constructor | done].
    + apply Nat.ltb_ge in Hlt.
      destruct (IH d') as (taken & Hl & Hts & Hend).
      destruct (consume_loop entry d' l) as [ts s] eqn:E. simpl in *.
      exists ((t, d') :: taken). split; [by rewrite Hl at 1|].
      split; [by rewrite Hts|].
      destruct Hend as [[Hall Hnil] | (pre & t0 & d0 & -> & Hall & Hd0 & Hdep)].
      * left. split; [by constructor | done].
      * right. exists ((t, d') :: pre), t0, d0.
        repeat split; [by constructor | done | done].
Qed.

(** Up to a drop of the depth below [entry], [consume] takes every
    token. *)
Lemma consume_loop_run (entry d : nat) (body : list (token * nat))
    (close : token) (dl : nat) (rest : list (token * nat)) :
  Forall (fun td => (entry <= td.2)%nat) body ->
  (dl < entry)%nat ->
  consume_loop entry d (body ++ (close, dl) :: rest)
  = (body.*1 ++ [close], {| depth := dl; upcoming := rest |}).
Proof.
  intros Hall Hdl. revert d.
  induction Hall as [|[t d'] body Hd _ IH]; intros d; simpl.
  - apply Nat.ltb_lt in Hdl. by rewrite Hdl.
  - simpl in Hd. apply Nat.ltb_ge in Hd. rewrite Hd.
    by rewrite IH.
Qed.

(** When the depth never drops below [entry], [consume] takes all that
    is left and the source ends exhausted. *)
Lemma consume_loop_exhausted (entry d : nat) (body : list (token * nat)) :
  Forall (fun td => (entry <= td.2)%nat) body ->
  (consume_loop entry d body).1 = body.*1 /\
  upcoming (consume_loop entry d body).2 = [].
Proof.
  intros Hall. revert d.
  induction Hall as [|[t d'] body Hd _ IH]; intros d; simpl.
  - done.
  - simpl in Hd. apply Nat.ltb_ge in Hd. rewrite Hd.
    destruct (IH d') as [IH1 IH2].
    destruct (consume_loop entry d' body) as [ts s']; simpl in *.
    by rewrite IH1.
Qed.

(** The body of the outer loop for a token that is no music item: the
    [if]/[elif] chain, then the next round of the [for] loop. *)
Lemma read_dispatch (P : LyPitch) (fuel : nat) (lang : string)
    (tok : token) (d0 d : nat) (l : list (token * nat)) :
  isinstance (Some tok) lex.MusicItem = false ->
  read P (S fuel)
    {| source := {| depth := d0; upcoming := (tok, d) :: l |};
       language := lang |}
  = yield (dispatch (Some tok) {| depth := d; upcoming := l |}).1
      (read P fuel
         {| source := (dispatch (Some tok) {| depth := d; upcoming := l |}).2;
            language := lang |}).
Proof.
  intros Hmi. unfold read. cbn [next source upcoming language read_loop].
  rewrite Hmi.
  by destruct (dispatch (Some tok) _) as [oi s1].
Qed.

(** C3: for a language name that is not in the pitch table,
    [set_language] returns a false value (Python's [None]) and leaves the
    reader as it was, so every name resolves after the call as it did
    before; for a name in the table it sets the language attribute to
    that name and returns [True]. *)
Theorem set_language_known_or_unchanged (P : LyPitch) (self : Reader)
    (lang : string) :
  (lang ∉ pitchInfo P ->
   (set_language P self lang).1 = None /\
   (set_language P self lang).2 = self /\
   forall t : token,
     pitchReader P (language (set_language P self lang).2) t
     = pitchReader P (language self) t)
  /\
  (lang ∈ pitchInfo P ->
   (set_language P self lang).1 = Some true /\
   language (set_language P self lang).2 = lang /\
   source (set_language P self lang).2 = source self).
Proof.
  unfold set_language. split; intros Hin; case_decide; try done.
Qed.

Lemma set_language_known_or_unchanged_witness :
  ((set_language sample.ly_pitch (init (sample.flat [])) "nonexistent").1
     = None /\
   (set_language sample.ly_pitch (init (sample.flat [])) "nonexistent").2
     = init (sample.flat []) /\
   forall t : token,
     pitchReader sample.ly_pitch
       (language
          (set_language sample.ly_pitch (init (sample.flat []))
             "nonexistent").2) t
     = pitchReader sample.ly_pitch (language (init (sample.flat []))) t)
  /\
  ((set_language sample.ly_pitch (init (sample.flat [])) "english").1
     = Some true /\
   language
     (set_language sample.ly_pitch (init (sample.flat [])) "english").2
     = "english" /\
   source (set_language sample.ly_pitch (init (sample.flat [])) "english").2
     = source (init (sample.flat []))).
Proof.
  split.
  - apply (set_language_known_or_unchanged sample.ly_pitch
             (init (sample.flat [])) "nonexistent").
    vm_compute. discriminate.
  - apply (set_language_known_or_unchanged sample.ly_pitch
             (init (sample.flat [])) "english").
    vm_compute. reflexivity.
Defined.

(** C4: [consume] yields the tokens of the source in order and stops
    with the first token after which the depth is below the depth at
    entry (or with the last token of the source); so a Scheme-start token
    followed by an expression, nested or not, whose last token brings the
    depth below the depth at entry gives one [SchemeValue] whose tokens
    are those of the expression up to and including that last token, and
    [read] goes on with the tokens that follow: the first item [read]
    yields is that [SchemeValue], and the items after it and the end of
    the run are those of reading the tokens that follow. *)
Theorem consume_until_depth_drops :
  (forall s : Source,
     exists taken : list (token * nat),
       upcoming s = taken ++ upcoming (consume s).2 /\
       (consume s).1 = taken.*1 /\
       ((Forall (fun td => (depth s <= td.2)%nat) taken /\
         upcoming (consume s).2 = []) \/
        (exists pre t d,
           taken = pre ++ [(t, d)] /\
           Forall (fun td => (depth s <= td.2)%nat) pre /\
           (d < depth s)%nat /\
           depth (consume s).2 = d)))
  /\
  (forall (P : LyPitch) (fuel : nat) (lang : string) (start close : token)
          (d0 entry dl : nat) (body rest : list (token * nat)),
     isinstance (Some start) lex.SchemeStart = true ->
     Forall (fun td => (entry <= td.2)%nat) body ->
     (dl < entry)%nat ->
     read P (S fuel)
       {| source :=
            {| depth := d0;
               upcoming := (start, entry) :: body ++ (close, dl) :: rest |};
          language := lang |}
     = ({| cls := SchemeValue;
           token_ := Some start;
           tokens := body.*1 ++ [close];
           duration := None;
           pitch := None;
           octave_token := None;
           accidental_token := None;
           octavecheck_token := None;
           value := None |}
        :: (read P fuel
              {| source := {| depth := dl; upcoming := rest |};
                 language := lang |}).1,
        (read P fuel
           {| source := {| depth := dl; upcoming := rest |};
              language := lang |}).2)).
Proof.
  split.
  - intros s. unfold consume. apply consume_loop_spec.
  - intros P fuel lang start close d0 entry dl body rest Hst Hbody Hdl.
    assert (Hcls : tcls start = lex.SchemeStart)
      by (destruct start as [[] ? ?]; done).
    rewrite read_dispatch by (by unfold isinstance; rewrite Hcls).
    unfold dispatch. rewrite Hst.
    unfold factory, consume. cbn [depth upcoming].
    by rewrite consume_loop_run.
Qed.

Lemma consume_until_depth_drops_witness :
  read sample.ly_pitch 3 (init sample.scheme_source)
  = ({| cls := SchemeValue;
        token_ := Some sample.scheme_start;
        tokens := sample.scheme_body.*1 ++ [sample.scheme_close];
        duration := None;
        pitch := None;
        octave_token := None;
        accidental_token := None;
        octavecheck_token := None;
        value := None |}
     :: (read sample.ly_pitch 2
           {| source := {| depth := 1; upcoming := sample.scheme_rest |};
              language := "nederlands" |}).1,
     (read sample.ly_pitch 2
        {| source := {| depth := 1; upcoming := sample.scheme_rest |};
           language := "nederlands" |}).2).
Proof.
  apply (proj2 consume_until_depth_drops sample.ly_pitch 2 "nederlands"
           sample.scheme_start sample.scheme_close 1%nat 2%nat 1%nat
           sample.scheme_body sample.scheme_rest).
  - reflexivity.
  - unfold sample.scheme_body. repeat constructor; simpl; lia.
  - lia.
Defined.

(** The example evaluated: one [SchemeValue] from [#] to the matching
    parenthesis, nothing for the blank and the word after it. *)
Example scheme_example :
  (fun item => (cls item, token_ item, tokens item))
    <$> (read sample.ly_pitch 3 (init sample.scheme_source)).1
  = [(SchemeValue, Some sample.scheme_start,
      sample.scheme_body.*1 ++ [sample.scheme_close])] /\
  (read sample.ly_pitch 3 (init sample.scheme_source)).2 = StopIteration.
Proof. split; reflexivity. Qed.

(** ** The end of the source inside a construct *)

Lemma read_exhausted (P : LyPitch) (fuel : nat) (lang : string) (s : Source) :
  upcoming s = [] ->
  read P fuel {| source := s; language := lang |} = ([], StopIteration).
Proof.
  intros Hnil. unfold read, next. cbn [source]. by rewrite Hnil.
Qed.

(** C2 (as the claim states it, refuted): a source that runs out inside a
    Scheme expression would never make [read] end with the normal end of
    the sequence.  The reader ends the unterminated expression of
    [sample.open_scheme] with [StopIteration]. *)
Lemma unterminated_construct_not_reported :
  ~ (forall (P : LyPitch) (fuel : nat) (s : Source),
       ends_inside_construct s ->
       (read P fuel (init s)).2 <> StopIteration).
Proof.
  intros H.
  apply (H sample.ly_pitch 2%nat sample.open_scheme).
  - split; [reflexivity|].
    unfold sample.scheme_body. repeat constructor; simpl; lia.
  - reflexivity.
Qed.

(** C2 (amended): when the source runs out inside a construct read by
    [consume] (the depth never drops below the depth at entry), [consume]
    ends with the source: the item is yielded with all the remaining
    tokens as its [tokens], and [read] then ends with the normal end of
    the sequence, [StopIteration]. *)
Theorem exhausted_construct_ends_normally (P : LyPitch) (fuel : nat)
    (lang : string) (s : Source) :
  ends_inside_construct s ->
  exists (start : token) (entry : nat) (body : list (token * nat))
         (item : ItemObj),
    upcoming s = (start, entry) :: body /\
    (consume {| depth := entry; upcoming := body |}).1 = body.*1 /\
    upcoming (consume {| depth := entry; upcoming := body |}).2 = [] /\
    read P (S fuel) {| source := s; language := lang |}
    = ([item], StopIteration) /\
    token_ item = Some start /\
    tokens item = body.*1 /\
    cls item ∈ [SchemeValue; Comment; StringValue].
Proof.
  destruct s as [d0 [|[start entry] body]]; unfold ends_inside_construct;
    cbn [upcoming]; [done|].
  intros [Hopen Hbody].
  destruct (consume_loop_exhausted entry entry body Hbody) as [Hts Hnil].
  exists start, entry, body.
  assert (Hmi : isinstance (Some start) lex.MusicItem = false)
    by (destruct start as [[] ? ?]; done).
  rewrite (read_dispatch _ _ _ _ _ _ _ Hmi).
  unfold dispatch, factory, consume. cbn [depth upcoming].
  destruct (consume_loop entry entry body) as [ts s'] eqn:E.
  cbn [fst snd] in *. subst ts.
  destruct start as [[] txt pos]; try done;
    cbn [isinstance lex.issubclass tcls bool_decide decide_rel orb fst snd];
    rewrite (read_exhausted _ _ _ _ Hnil);
    eexists; (split; [reflexivity|]); (split; [reflexivity|]);
    (split; [done|]); (split; [reflexivity|]);
    (split; [reflexivity|]); (split; [reflexivity|]);
    cbn; elem_of_list.
Qed.

Lemma exhausted_construct_ends_normally_witness :
  exists (start : token) (entry : nat) (body : list (token * nat))
         (item : ItemObj),
    upcoming sample.open_scheme = (start, entry) :: body /\
    (consume {| depth := entry; upcoming := body |}).1 = body.*1 /\
    upcoming (consume {| depth := entry; upcoming := body |}).2 = [] /\
    read sample.ly_pitch 1
      {| source := sample.open_scheme; language := "nederlands" |}
    = ([item], StopIteration) /\
    token_ item = Some start /\
    tokens item = body.*1 /\
    cls item ∈ [SchemeValue; Comment; StringValue].
Proof.
  apply (exhausted_construct_ends_normally sample.ly_pitch 0 "nederlands"
           sample.open_scheme).
  split; [reflexivity|].
  unfold sample.scheme_body. repeat constructor; simpl; lia.
Defined.

(** ** What the loops keep of an item *)

Lemma pitch_loop_same_head (l : list (token * nat)) :
  forall (item : ItemObj) (t : option token) (d : nat),
    same_head (pitch_loop item t d l).1.1 item.
Proof.
  induction l as [|[tok d'] l IH]; intros item t d; cbn [pitch_loop].
  - done.
  - repeat case_match; try done;
      match goal with
      | |- same_head (pitch_loop ?i ?t' ?d' _).1.1 _ =>
          destruct (IH i t' d') as (H1 & H2 & H3 & H4 & H5)
      end;
      unfold same_head; rewrite H1, H2, H3, H4, H5; done.
Qed.

Lemma isinstance_Duration_token (t : token) :
  isinstance (Some t) lex.Duration = true -> is_duration_token t.
Proof. destruct t as [[] ? ?]; done. Qed.

Lemma duration_loop_Forall (l : list (token * nat)) :
  forall (ds : list token) (t : option token) (d : nat),
    Forall is_duration_token ds ->
    Forall is_duration_token (duration_loop ds t d l).1.1.
Proof.
  induction l as [|[tok d'] l IH]; intros ds t d Hds; cbn [duration_loop].
  - done.
  - destruct (isinstance (Some tok) lex.Duration) eqn:Hdur.
    + apply IH. apply Forall_app. split; [done|].
      constructor; [by apply isinstance_Duration_token | constructor].
    + destruct (negb (isinstance (Some tok) lex.Space)); [done | by apply IH].
Qed.

(** After [wait_for_duration] the item has a [Duration] whose tokens are
    all duration tokens; nothing else of the item has changed. *)
Lemma wait_for_duration_spec (item : ItemObj) (t : option token) (s : Source) :
  exists ds : list token,
    (wait_for_duration item t s).1.1 = set_duration item {| dur_tokens := ds |}
    /\ Forall is_duration_token ds.
Proof.
  unfold wait_for_duration.
  destruct (negb (truth t) || isinstance t lex.Duration) eqn:Hcond.
  - match goal with
    | |- context [duration_loop ?ds0 t (depth s) (upcoming s)] =>
        assert (Hds : Forall is_duration_token ds0)
    end.
    { destruct t as [tok|]; [|constructor].
      destruct (truth (Some tok)) eqn:Htr; [|constructor].
      cbn [negb orb] in Hcond.
      constructor; [by apply isinstance_Duration_token | constructor]. }
    pose proof (duration_loop_Forall (upcoming s) _ t (depth s) Hds) as Hall.
    destruct (duration_loop _ t (depth s) (upcoming s)) as [[ds' t'] s'].
    by exists ds'.
  - exists []. split; [done | constructor].
Qed.

(** What [music_item] returns when it returns an item. *)
Lemma music_item_spec (P : LyPitch) (lang : string) (tok : token)
    (s : Source) (item : ItemObj) (t1 : option token) (s1 : Source) :
  music_item P lang tok s = (Some item, t1, s1) ->
  cls item ∈ [Note; Rest; Skip; Q] /\
  token_ item = Some tok /\ tokens item = [] /\ duration item = None /\
  (cls item = Note <-> tcls tok = lex.Note) /\
  (tcls tok = lex.Note -> is_Some (pitchReader P lang tok)).
Proof.
  unfold music_item. case_bool_decide as Hn.
  - destruct (pitchReader P lang tok) as [r|] eqn:Hr; [|done].
    pose proof (pitch_loop_same_head (upcoming s)
                  (set_pitch (factory Note tok false s).1 (Pitch_of r))
                  None (depth s)) as (Hc & Ht & Hts & Hd & _).
    destruct (pitch_loop _ None (depth s) (upcoming s)) as [[item' t'] s'].
    intros [= <- <- <-]. cbn [fst] in *.
    rewrite Hc, Ht, Hts, Hd. cbn. repeat split; try done. elem_of_list.
  - repeat case_match; intros [= <- <- <-]; cbn;
      (repeat split; try done); elem_of_list.
Qed.

(** What [dispatch] returns when it returns an item. *)
Lemma dispatch_spec (t : option token) (s : Source) (item : ItemObj) :
  (dispatch t s).1 = Some item ->
  exists tok : token,
    t = Some tok /\ token_ item = Some tok /\
    isinstance t lex.MusicItem = false /\ tcls tok <> lex.Note /\
    duration item = None /\
    cls item ∈ [SchemeValue; Comment; StringValue] /\
    (tokens item = [] \/ tokens item = (consume s).1).
Proof.
  destruct t as [tok|]; [|done]. unfold dispatch, factory.
  destruct (consume s) as [ts s'] eqn:Hc.
  destruct tok as [[] txt pos]; cbn; try done;
    intros [= <-]; eexists; (repeat split; try done);
    first [by left | by right | elem_of_list].
Qed.

(** An invariant of the items: it holds of every item [read] yields when
    it holds of what the two yielding places of the loop produce. *)
Lemma read_loop_Forall (P : LyPitch) (lang : string) (Inv : ItemObj -> Prop) :
  (forall tok s item t1 s1,
     isinstance (Some tok) lex.MusicItem = true ->
     music_item P lang tok s = (Some item, t1, s1) ->
     Inv (wait_for_duration item t1 s1).1.1) ->
  (forall t s item, (dispatch t s).1 = Some item -> Inv item) ->
  forall (fuel : nat) (t : option token) (s : Source),
    Forall Inv (read_loop P fuel lang t s).1.
Proof.
  intros Hmusic Hdisp.
  induction fuel as [|fuel IH]; intros t s; cbn [read_loop]; [constructor|].
  destruct t as [tok|].
  - destruct (isinstance (Some tok) lex.MusicItem) eqn:Hmi.
    + destruct (music_item P lang tok s) as [[[item|] t1] s1] eqn:Hm.
      * specialize (Hmusic _ _ _ _ _ Hmi Hm).
        destruct (wait_for_duration item t1 s1) as [[item' t2] s2].
        cbn [yield fst]. constructor; [done | apply IH].
      * apply IH.
    + specialize (Hdisp (Some tok) s).
      destruct (dispatch (Some tok) s) as [[item|] s1]; cbn [yield fst snd] in *.
      * destruct (next s1) as [[t' s2]|];
          (constructor; [by apply Hdisp|]); [apply IH | constructor].
      * destruct (next s1) as [[t' s2]|]; [apply IH | constructor].
  - destruct (next s) as [[t' s2]|]; [apply IH | constructor].
Qed.

Lemma read_Forall (P : LyPitch) (Inv : ItemObj -> Prop) (self : Reader) :
  (forall tok s item t1 s1,
     isinstance (Some tok) lex.MusicItem = true ->
     music_item P (language self) tok s = (Some item, t1, s1) ->
     Inv (wait_for_duration item t1 s1).1.1) ->
  (forall t s item, (dispatch t s).1 = Some item -> Inv item) ->
  forall fuel : nat, Forall Inv (read P fuel self).1.
Proof.
  intros Hmusic Hdisp fuel. unfold read.
  destruct (next (source self)) as [[t s]|]; [|constructor].
  by apply read_loop_Forall.
Qed.

(** ** The items [read] yields *)

Lemma read_yields_kinds (P : LyPitch) (fuel : nat) (self : Reader) :
  Forall
    (fun item =>
       cls item ∈ [Note; Rest; Skip; Q; SchemeValue; Comment; StringValue])
    (read P fuel self).1.
Proof.
  apply read_Forall.
  - intros tok s item t1 s1 _ Hm.
    destruct (music_item_spec _ _ _ _ _ _ _ Hm) as (Hc & _).
    destruct (wait_for_duration_spec item t1 s1) as (ds & -> & _).
    cbn [cls set_duration]. elem_of_list.
  - intros t s item Hd.
    destruct (dispatch_spec _ _ _ Hd) as (tok & _ & _ & _ & _ & _ & Hc & _).
    elem_of_list.
Qed.

(** C10: whatever the token stream, and however far [read] is run, every
    item it yields is a [Note], [Rest], [Skip], [Q], [SchemeValue],
    [Comment] or [StringValue]; none is a bare [Token], [Chord], [Music],
    [Container] or [Duration] (nor a plain [Item] or [Durable]). *)
Theorem read_yields_leaf_items_only (P : LyPitch) (fuel : nat)
    (self : Reader) :
  Forall
    (fun item =>
       cls item ∈ [Note; Rest; Skip; Q; SchemeValue; Comment; StringValue] /\
       cls item ∉ [Token; Chord; Music; Container; Duration; Item; Durable])
    (read P fuel self).1.
Proof.
  eapply Forall_impl; [apply read_yields_kinds|]. cbn beta.
  intros item Hc. split; [done|].
  destruct (cls item); elem_of_list.
Qed.

(** C9: every durable item ([Note], [Rest], [Skip], [Q]) that [read]
    yields has a [Duration] object (never [None]) whose tokens are all
    duration tokens, none of them whitespace; a music item that no token
    follows has a [Duration] with the empty list of tokens. *)
Theorem durable_items_have_duration :
  (forall (P : LyPitch) (fuel : nat) (self : Reader),
     Forall
       (fun item =>
          cls item ∈ [Note; Rest; Skip; Q] ->
          exists d : DurationObj,
            duration item = Some d /\
            Forall is_duration_token (dur_tokens d))
       (read P fuel self).1)
  /\
  (forall (P : LyPitch) (fuel : nat) (lang : string) (tok : token)
          (d0 d : nat),
     isinstance (Some tok) lex.MusicItem = true ->
     tcls tok <> lex.Note ->
     exists item : ItemObj,
       read P (S (S fuel))
         {| source := {| depth := d0; upcoming := [(tok, d)] |};
            language := lang |}
       = ([item], StopIteration) /\
       cls item ∈ [Rest; Skip; Q] /\
       token_ item = Some tok /\
       duration item = Some {| dur_tokens := [] |}).
Proof.
  split.
  - intros P fuel self. apply read_Forall.
    + intros tok s item t1 s1 _ _.
      destruct (wait_for_duration_spec item t1 s1) as (ds & -> & Hds).
      intros _. by exists {| dur_tokens := ds |}.
    + intros t s item Hd.
      destruct (dispatch_spec _ _ _ Hd) as (tok & _ & _ & _ & _ & _ & Hc & _).
      intros Hc'. destruct (cls item); elem_of_list.
  - intros P fuel lang tok d0 d Hmi Hn.
    unfold read. cbn [next source upcoming language read_loop].
    rewrite Hmi.
    destruct tok as [[] txt pos]; try done;
      eexists; (split; [reflexivity|]); cbn;
      (split; [elem_of_list | done]).
Qed.

Lemma durable_items_have_duration_witness :
  (exists d : DurationObj,
     duration
       (set_duration (new_item Rest sample.rest_r) {| dur_tokens := [] |})
     = Some d /\
     Forall is_duration_token (dur_tokens d))
  /\
  (exists item : ItemObj,
     read sample.ly_pitch 2
       {| source := {| depth := 1; upcoming := [(sample.rest_r, 1%nat)] |};
          language := "nederlands" |}
     = ([item], StopIteration) /\
     cls item ∈ [Rest; Skip; Q] /\
     token_ item = Some sample.rest_r /\
     duration item = Some {| dur_tokens := [] |}).
Proof.
  split.
  - pose proof (proj1 durable_items_have_duration sample.ly_pitch 2%nat
                  (init (sample.flat [sample.rest_r]))) as H.
    apply Forall_cons_1 in H. apply (proj1 H). cbn. elem_of_list.
  - apply (proj2 durable_items_have_duration sample.ly_pitch 0%nat
             "nederlands" sample.rest_r 1%nat 1%nat);
      [reflexivity | discriminate].
Defined.

(** ** A note name the language does not know *)

(** A [Note] token that [pitchReader] does not resolve leaves [item] at
    [None] and [t] as it is: the [while] loop tests the same token again,
    without end. *)
Lemma read_loop_unresolved_note (P : LyPitch) (lang : string) (tok : token)
    (s : Source) :
  tcls tok = lex.Note ->
  pitchReader P lang tok = None ->
  forall fuel : nat, read_loop P fuel lang (Some tok) s = ([], Running).
Proof.
  intros Hn Hr. induction fuel as [|fuel IH]; cbn [read_loop]; [done|].
  assert (Hmi : isinstance (Some tok) lex.MusicItem = true)
    by (unfold isinstance; by rewrite Hn).
  rewrite Hmi. unfold music_item.
  rewrite bool_decide_eq_true_2 by done. by rewrite Hr.
Qed.

(** A [Note] token is none of the tokens the inner loops pass over. *)
Lemma note_is_no_mark (x : token) :
  tcls x = lex.Note ->
  isinstance (Some x) lex.MusicItem = true /\
  isinstance (Some x) lex.Octave = false /\
  isinstance (Some x) lex.Accidental = false /\
  isinstance (Some x) lex.OctaveCheck = false /\
  isinstance (Some x) lex.Space = false /\
  isinstance (Some x) lex.Duration = false.
Proof. destruct x as [[] ? ?]; intros; done. Qed.

(** The loop over the pitch tokens hands a [Note] token of the source
    back to [read]: the token is still in [t] or in the source. *)
Lemma pitch_loop_note_stays (x : token) (l : list (token * nat)) :
  tcls x = lex.Note ->
  forall (item : ItemObj) (t : option token) (d : nat),
    x ∈ l.*1 ->
    x ∈ at_hand (pitch_loop item t d l).1.2 (pitch_loop item t d l).2.
Proof.
  intros Hx. destruct (note_is_no_mark x Hx) as (_ & Ho & Ha & Hc & Hs & _).
  induction l as [|[tok d'] l IH]; intros item t d Hin; cbn [pitch_loop].
  - by apply elem_of_nil in Hin.
  - cbv zeta. cbn [fmap list_fmap fst] in Hin.
    apply elem_of_cons in Hin as [<-|Hin].
    + rewrite Ho, Ha, Hc, Hs. cbn [negb fst snd at_hand]. left.
    + repeat case_match; cbn [fst snd at_hand upcoming];
        first [by apply IH | by right].
Qed.

Lemma duration_loop_note_stays (x : token) (l : list (token * nat)) :
  tcls x = lex.Note ->
  forall (ds : list token) (t : option token) (d : nat),
    x ∈ l.*1 ->
    x ∈ at_hand (duration_loop ds t d l).1.2 (duration_loop ds t d l).2.
Proof.
  intros Hx. destruct (note_is_no_mark x Hx) as (_ & _ & _ & _ & Hs & Hd).
  induction l as [|[tok d'] l IH]; intros ds t d Hin; cbn [duration_loop].
  - by apply elem_of_nil in Hin.
  - cbv zeta. cbn [fmap list_fmap fst] in Hin.
    apply elem_of_cons in Hin as [<-|Hin].
    + rewrite Hd, Hs. cbn [negb fst snd at_hand]. left.
    + repeat case_match; cbn [fst snd at_hand upcoming];
        first [by apply IH | by right].
Qed.

Lemma wait_for_duration_note_stays (x : token) (item : ItemObj)
    (t : option token) (s : Source) :
  tcls x = lex.Note ->
  ttext x <> EmptyString ->
  x ∈ at_hand t s ->
  x ∈ at_hand (wait_for_duration item t s).1.2 (wait_for_duration item t s).2.
Proof.
  intros Hx Htext Hin. unfold wait_for_duration.
  destruct (negb (truth t) || isinstance t lex.Duration) eqn:Hcond; [|done].
  assert (Hup : x ∈ (upcoming s).*1).
  { destruct t as [tok|]; [|done]. cbn [at_hand] in Hin.
    apply elem_of_cons in Hin as [<-|Hin]; [|done].
    destruct (note_is_no_mark x Hx) as (_ & _ & _ & _ & _ & Hd).
    rewrite Hd in Hcond. unfold truth in Hcond.
    apply String.eqb_neq in Htext. by rewrite Htext in Hcond. }
  match goal with
  | |- context [duration_loop ?ds0 t (depth s) (upcoming s)] =>
      pose proof (duration_loop_note_stays x (upcoming s) Hx ds0 t (depth s)
                    Hup) as Hs;
      destruct (duration_loop ds0 t (depth s) (upcoming s)) as [[ds' t'] s']
  end.
  exact Hs.
Qed.

Lemma music_item_note_stays (P : LyPitch) (lang : string) (x tok : token)
    (s : Source) (item : ItemObj) (t1 : option token) (s1 : Source) :
  tcls x = lex.Note ->
  pitchReader P lang x = None ->
  music_item P lang tok s = (Some item, t1, s1) ->
  x ∈ at_hand (Some tok) s ->
  x ∈ at_hand t1 s1.
Proof.
  intros Hx Hr Hm Hin.
  destruct (music_item_spec _ _ _ _ _ _ _ Hm) as (_ & _ & _ & _ & _ & Hres).
  assert (Hup : x ∈ (upcoming s).*1).
  { cbn [at_hand] in Hin. apply elem_of_cons in Hin as [Heq|Hin]; [|done].
    subst tok. destruct (Hres Hx) as [r Hr']. congruence. }
  revert Hm. unfold music_item. case_bool_decide as Hn.
  - destruct (pitchReader P lang tok) as [r|]; [|done].
    match goal with
    | |- context [pitch_loop ?i None (depth s) (upcoming s)] =>
        pose proof (pitch_loop_note_stays x (upcoming s) Hx i None (depth s)
                      Hup) as Hs;
        destruct (pitch_loop i None (depth s) (upcoming s)) as [[i' t'] s']
    end.
    by intros [= <- <- <-].
  - repeat case_match; by intros [= <- <- <-].
Qed.

(** Without an item, [music_item] leaves [t] and the source as they
    are. *)
Lemma music_item_None (P : LyPitch) (lang : string) (tok : token)
    (s : Source) (t1 : option token) (s1 : Source) :
  music_item P lang tok s = (None, t1, s1) -> t1 = Some tok /\ s1 = s.
Proof.
  unfold music_item. repeat case_match; try done. by intros [= <- <-].
Qed.

(** A token of the source is left in the source by [dispatch], or it is
    among the [tokens] of the item that [dispatch] returns. *)
Lemma dispatch_keeps_or_consumes (x tok : token) (s : Source) :
  x ∈ (upcoming s).*1 ->
  x ∈ (upcoming (dispatch (Some tok) s).2).*1 \/
  exists item : ItemObj,
    (dispatch (Some tok) s).1 = Some item /\
    cls item ∈ [SchemeValue; Comment; StringValue] /\
    x ∈ tokens item.
Proof.
  intros Hin. unfold dispatch, factory, consume.
  destruct (consume_loop_spec (depth s) (upcoming s) (depth s))
    as (taken & Hl & Hts & _).
  destruct (consume_loop (depth s) (depth s) (upcoming s)) as [ts s'].
  cbn [fst snd] in *. subst ts.
  rewrite Hl, fmap_app in Hin. apply elem_of_app in Hin.
  repeat case_match; cbn [fst snd]; try (left; rewrite Hl, fmap_app;
    apply elem_of_app; tauto);
  (destruct Hin as [Hin|Hin]; [right|by left]);
  eexists; (split; [reflexivity|]); cbn; (split; [elem_of_list|done]).
Qed.

(** When [read] ends, every [Note] token it had at hand whose name the
    language does not know is among the [tokens] of an item. *)
Lemma read_loop_ends_notes (P : LyPitch) (lang : string) (x : token) :
  tcls x = lex.Note ->
  ttext x <> EmptyString ->
  pitchReader P lang x = None ->
  forall (fuel : nat) (t : option token) (s : Source),
    (read_loop P fuel lang t s).2 = StopIteration ->
    x ∈ at_hand t s ->
    Exists (fun item => x ∈ tokens item) (read_loop P fuel lang t s).1.
Proof.
  intros Hx Htext Hr.
  induction fuel as [|fuel IH]; intros t s; cbn [read_loop]; [done|].
  assert (Hnext : forall s1 : Source,
            (match next s1 with
             | Some (t', s2) => read_loop P fuel lang (Some t') s2
             | None => ([], StopIteration)
             end).2 = StopIteration ->
            x ∈ (upcoming s1).*1 ->
            Exists (fun item => x ∈ tokens item)
              (match next s1 with
               | Some (t', s2) => read_loop P fuel lang (Some t') s2
               | None => ([], StopIteration)
               end).1).
  { intros s1. unfold next.
    destruct (upcoming s1) as [|[t' d'] l'] eqn:Hup.
    - intros _ Hin. by apply elem_of_nil in Hin.
    - intros Hend Hin. by apply IH. }
  destruct t as [tok|]; [|by apply Hnext].
  destruct (isinstance (Some tok) lex.MusicItem) eqn:Hmi.
  - destruct (music_item P lang tok s) as [[[item|] t1] s1] eqn:Hm.
    + pose proof (wait_for_duration_note_stays x item t1 s1 Hx Htext) as Hw.
      destruct (wait_for_duration item t1 s1) as [[item' t2] s2].
      cbn [fst snd yield] in *. intros Hend Hin.
      apply Exists_cons_tl. apply IH; [done|]. apply Hw.
      by eapply music_item_note_stays.
    + destruct (music_item_None _ _ _ _ _ _ Hm) as [-> ->].
      intros Hend Hin. by apply IH.
  - pose proof (dispatch_keeps_or_consumes x tok s) as Hd.
    destruct (dispatch (Some tok) s) as [oi s1]. cbn [fst snd] in Hd.
    intros Hend Hin.
    assert (Hup : x ∈ (upcoming s).*1).
    { cbn [at_hand] in Hin. apply elem_of_cons in Hin as [Heq|Hin]; [|done].
      subst tok. destruct (note_is_no_mark x Hx) as (Hm & _). congruence. }
    destruct (Hd Hup) as [Hs1 | (item & -> & _ & Hitem)].
    + destruct oi as [item|]; cbn [yield fst snd] in *.
      * apply Exists_cons_tl. by apply Hnext.
      * by apply Hnext.
    + cbn [yield fst]. by apply Exists_cons_hd.
Qed.

(** C1 (the claim, which the code breaks): a [Note] token whose name the
    reader's language does not know.  The claim has reading go on with
    the tokens after it.  When the source begins with such a token, no
    run of [read], however long, yields an item or ends; and wherever
    such a token is in the source, [read] does not end unless the token
    is among the [tokens] of an item (it was consumed as part of a Scheme
    value, a comment or a string and never read as a note). *)
Theorem unresolved_note_hangs_read (P : LyPitch) (fuel : nat)
    (self : Reader) (tok : token) :
  tcls tok = lex.Note ->
  ttext tok <> EmptyString ->
  pitchReader P (language self) tok = None ->
  (head (upcoming (source self)).*1 = Some tok ->
   read P fuel self = ([], Running)) /\
  (tok ∈ (upcoming (source self)).*1 ->
   Forall (fun item => tok ∉ tokens item) (read P fuel self).1 ->
   (read P fuel self).2 = Running).
Proof.
  intros Hn Htext Hr. split.
  - unfold read, next.
    destruct (upcoming (source self)) as [|[t d] l]; [done|].
    intros [= ->]. by apply read_loop_unresolved_note.
  - intros Hin Hno.
    destruct (read P fuel self).2 eqn:Hend; [|done]. exfalso.
    revert Hno Hend. unfold read, next.
    destruct (upcoming (source self)) as [|[t d] l] eqn:Hup.
    { by apply elem_of_nil in Hin. }
    intros Hno Hend.
    pose proof (read_loop_ends_notes P (language self) tok Hn Htext Hr fuel
                  (Some t) {| depth := d; upcoming := l |} Hend Hin) as Hex.
    apply Exists_exists in Hex as (item & Hitem & Htok).
    rewrite Forall_forall in Hno. by apply (Hno item).
Qed.

Lemma unresolved_note_hangs_read_witness :
  read sample.ly_pitch 1000
    (init (sample.flat [sample.note_xyz; sample.rest_r]))
  = ([], Running) /\
  (read sample.ly_pitch 1000
     (init (sample.flat [sample.rest_r; sample.blank; sample.note_xyz;
                         sample.rest_r]))).2
  = Running.
Proof.
  split.
  - apply (unresolved_note_hangs_read sample.ly_pitch 1000
             (init (sample.flat [sample.note_xyz; sample.rest_r]))
             sample.note_xyz); [reflexivity | discriminate | reflexivity
                               | reflexivity].
  - apply (unresolved_note_hangs_read sample.ly_pitch 1000
             (init (sample.flat [sample.rest_r; sample.blank; sample.note_xyz;
                                 sample.rest_r]))
             sample.note_xyz); [reflexivity | discriminate | reflexivity | | ].
    + cbn. apply list_elem_of_In. cbn. tauto.
    + vm_compute. repeat constructor. intros H. inversion H.
Defined.

(** The rest before the unknown name is yielded, the rest after it never
    is. *)
Example unresolved_note_example :
  read sample.ly_pitch 1000
    (init (sample.flat [sample.rest_r; sample.blank; sample.note_xyz;
                        sample.rest_r]))
  = ([set_duration (new_item Rest sample.rest_r) {| dur_tokens := [] |}],
     Running).
Proof. vm_compute. reflexivity. Qed.

(** What [read] has yielded at any point of a run: no item is built on
    a [Note] token whose name the language does not know, and every
    [Note] is built on a token whose name it knows. *)
Lemma unresolved_note_yields_no_item (P : LyPitch) (fuel : nat)
    (self : Reader) (tok : token) :
  tcls tok = lex.Note ->
  pitchReader P (language self) tok = None ->
  Forall (fun item => token_ item <> Some tok) (read P fuel self).1 /\
  Forall
    (fun item =>
       cls item = Note ->
       exists t : token,
         token_ item = Some t /\ is_Some (pitchReader P (language self) t))
    (read P fuel self).1.
Proof.
  intros Hn Hr. split; apply read_Forall.
  - intros tok' s item t1 s1 _ Hm.
    destruct (music_item_spec _ _ _ _ _ _ _ Hm) as (_ & Ht & _ & _ & _ & Hres).
    destruct (wait_for_duration_spec item t1 s1) as (ds & -> & _).
    cbn [token_ set_duration]. rewrite Ht. intros [= ->].
    destruct (Hres Hn) as [r Hr']. congruence.
  - intros t s item Hd.
    destruct (dispatch_spec _ _ _ Hd) as (tok' & _ & Ht & _ & Hnn & _).
    rewrite Ht. intros [= ->]. done.
  - intros tok' s item t1 s1 _ Hm.
    destruct (music_item_spec _ _ _ _ _ _ _ Hm) as (_ & Ht & _ & _ & Hc & Hres).
    destruct (wait_for_duration_spec item t1 s1) as (ds & -> & _).
    cbn [cls token_ set_duration]. intros Hnote.
    exists tok'. split; [done|]. apply Hres. by apply Hc.
  - intros t s item Hd.
    destruct (dispatch_spec _ _ _ Hd) as (tok' & _ & _ & _ & _ & _ & Hc & _).
    intros Hnote. rewrite Hnote in Hc. elem_of_list.
Qed.

(** ** Notes: pitch and duration *)

(** Blanks, then the end of the source or a token that is neither a
    duration nor a blank, add nothing to the duration. *)
Lemma duration_loop_blanks (spaces tail : list (token * nat)) :
  Forall (fun td => isinstance (Some td.1) lex.Space = true) spaces ->
  match tail with
  | [] => True
  | (t, _) :: _ =>
      isinstance (Some t) lex.Duration = false /\
      isinstance (Some t) lex.Space = false
  end ->
  forall (ds : list token) (t : option token) (d : nat),
    (duration_loop ds t d (spaces ++ tail)).1.1 = ds.
Proof.
  intros Hsp Htail.
  induction Hsp as [|[tok d'] spaces Htok _ IH]; intros ds t d.
  - destruct tail as [|[tok d'] tail]; [done|].
    destruct Htail as [Hd Hs]. cbn [app duration_loop]. by rewrite Hd, Hs.
  - cbn [app duration_loop]. cbn [fst] in Htok.
    assert (Hd : isinstance (Some tok) lex.Duration = false)
      by (destruct tok as [[] ? ?]; done).
    rewrite Hd, Htok. cbn [negb]. apply IH.
Qed.

(** C5: a [Note] token whose name resolves, followed at once by the
    octave token of two raising marks and by a duration token (after
    which no other duration token follows): [read] yields a [Note] whose
    pitch has octave 2 and whose [Duration] holds exactly that one
    duration token. *)
Theorem note_two_octave_marks_and_duration (P : LyPitch) (fuel : nat)
    (lang : string) (n o d : token) (d0 dn do dd : nat)
    (spaces tail : list (token * nat)) (r : Z * QArith_base.Q) :
  tcls n = lex.Note ->
  pitchReader P lang n = Some r ->
  tcls o = lex.Octave ->
  ttext o = "''" ->
  tcls d = lex.Duration ->
  ttext d <> EmptyString ->
  Forall (fun td => isinstance (Some td.1) lex.Space = true) spaces ->
  match tail with
  | [] => True
  | (t, _) :: _ =>
      isinstance (Some t) lex.Duration = false /\
      isinstance (Some t) lex.Space = false
  end ->
  exists (item : ItemObj) (items : list ItemObj) (term : Terminal),
    read P (S fuel)
      {| source :=
           {| depth := d0;
              upcoming := (n, dn) :: (o, do) :: (d, dd) :: spaces ++ tail |};
         language := lang |}
    = (item :: items, term) /\
    cls item = Note /\
    token_ item = Some n /\
    octave <$> pitch item = Some 2%Z /\
    note <$> pitch item = Some r.1 /\
    octave_token item = Some o /\
    duration item = Some {| dur_tokens := [d] |}.
Proof.
  intros Hn Hr Ho Hot Hd Hdt Hsp Htail.
  destruct n as [cn tn pn], o as [co to po], d as [cd td pd].
  cbn [tcls ttext] in *. subst cn co cd to.
  unfold read. cbn [next source upcoming language read_loop].
  change (isinstance (Some (Tok lex.Note tn pn)) lex.MusicItem) with true.
  cbv iota. unfold music_item. cbn [tcls].
  rewrite bool_decide_eq_true_2 by done. rewrite Hr.
  cbn [factory fst depth upcoming pitch_loop].
  change (isinstance (Some (Tok lex.Octave "''" po)) lex.Octave) with true.
  cbv iota.
  change (isinstance (Some (Tok lex.Duration td pd)) lex.Octave) with false.
  change (isinstance (Some (Tok lex.Duration td pd)) lex.Accidental) with false.
  change (isinstance (Some (Tok lex.Duration td pd)) lex.OctaveCheck) with false.
  change (isinstance (Some (Tok lex.Duration td pd)) lex.Space) with false.
  cbn [negb]. cbv iota.
  unfold wait_for_duration.
  change (isinstance (Some (Tok lex.Duration td pd)) lex.Duration) with true.
  rewrite orb_true_r.
  assert (Htruth : truth (Some (Tok lex.Duration td pd)) = true).
  { unfold truth. cbn [ttext]. apply negb_true_iff.
    by apply String.eqb_neq. }
  rewrite Htruth. cbn [depth upcoming].
  pose proof (duration_loop_blanks spaces tail Hsp Htail
                [Tok lex.Duration td pd] (Some (Tok lex.Duration td pd)) dd)
    as Hloop.
  destruct (duration_loop _ _ dd (spaces ++ tail)) as [[ds' t'] s'].
  cbn [fst] in Hloop. subst ds'.
  cbn [yield]. eexists _, _, _. split; [reflexivity|].
  by repeat split.
Qed.

Lemma note_two_octave_marks_and_duration_witness :
  exists (item : ItemObj) (items : list ItemObj) (term : Terminal),
    read sample.ly_pitch 3
      {| source :=
           {| depth := 1;
              upcoming :=
                (sample.note_c, 1%nat) :: (sample.octave_up2, 1%nat)
                :: (sample.dur_4, 1%nat)
                :: [(sample.blank, 1%nat)] ++ [(sample.rest_r, 1%nat)] |};
         language := "nederlands" |}
    = (item :: items, term) /\
    cls item = Note /\
    token_ item = Some sample.note_c /\
    octave <$> pitch item = Some 2%Z /\
    note <$> pitch item = Some 0%Z /\
    octave_token item = Some sample.octave_up2 /\
    duration item = Some {| dur_tokens := [sample.dur_4] |}.
Proof.
  apply (note_two_octave_marks_and_duration sample.ly_pitch 2 "nederlands"
           sample.note_c sample.octave_up2 sample.dur_4 1 1 1 1
           [(sample.blank, 1%nat)] [(sample.rest_r, 1%nat)]
           (0%Z, (0 # 1)%Q));
    try reflexivity.
  - discriminate.
  - repeat constructor.
  - split; reflexivity.
Defined.

(** Two octave tokens in a row do not add up: the second assignment to
    [p.octave] replaces the first. *)
Example two_octave_tokens :
  (fun item => octave <$> pitch item) <$>
    head (read sample.ly_pitch 3
            (init (sample.flat [sample.note_c; sample.octave_up1;
                                sample.octave_up1; sample.dur_4]))).1
  = Some (Some 1%Z).
Proof. reflexivity. Qed.

(** After an octave check the loop over the pitch tokens is left with
    [t] still the octave-check token: it is there and it is no duration,
    so the tokens that follow are not looked at for a duration. *)
Lemma octave_check_ends_note (P : LyPitch) (lang : string) (n k : token)
    (d0 dk : nat) (l : list (token * nat)) (r : Z * QArith_base.Q)
    (item : ItemObj) (t1 : option token) (s1 : Source) :
  tcls n = lex.Note ->
  pitchReader P lang n = Some r ->
  tcls k = lex.OctaveCheck ->
  ttext k <> EmptyString ->
  music_item P lang n {| depth := d0; upcoming := (k, dk) :: l |}
  = (Some item, t1, s1) ->
  t1 = Some k /\
  s1 = {| depth := dk; upcoming := l |} /\
  wait_for_duration item t1 s1
  = (set_duration item {| dur_tokens := [] |}, Some k, s1).
Proof.
  intros Hn Hr Hk Hkt. unfold music_item.
  rewrite bool_decide_eq_true_2 by done. rewrite Hr.
  destruct k as [ck tk pk]. cbn [tcls ttext] in *. subst ck.
  cbn [depth upcoming pitch_loop].
  change (isinstance (Some (Tok lex.OctaveCheck tk pk)) lex.Octave) with false.
  change (isinstance (Some (Tok lex.OctaveCheck tk pk)) lex.Accidental)
    with false.
  change (isinstance (Some (Tok lex.OctaveCheck tk pk)) lex.OctaveCheck)
    with true.
  cbv iota. intros [= <- <- <-]. split; [done|]. split; [done|].
  unfold wait_for_duration.
  change (isinstance (Some (Tok lex.OctaveCheck tk pk)) lex.Duration)
    with false.
  assert (Htruth : truth (Some (Tok lex.OctaveCheck tk pk)) = true).
  { unfold truth. cbn [ttext]. apply negb_true_iff.
    by apply String.eqb_neq. }
  by rewrite Htruth.
Qed.

(** C6 (the claim, which the code breaks): a note followed by an octave
    check and a duration.  [read] yields the [Note] with an empty
    [Duration]; the duration token [4] is in no item. *)
Theorem octave_check_then_duration :
  read sample.ly_pitch 4
    (init (sample.flat [sample.note_c; sample.check_up1; sample.dur_4]))
  = ([ {| cls := Note;
          token_ := Some sample.note_c;
          tokens := [];
          duration := Some {| dur_tokens := [] |};
          pitch := Some {| note := 0%Z; alter := (0 # 1)%Q; octave := 0%Z;
                           accidental := None; octavecheck := Some 1%Z |};
          octave_token := None;
          accidental_token := None;
          octavecheck_token := Some sample.check_up1;
          value := None |} ],
     StopIteration).
Proof. reflexivity. Qed.

(** Without the octave check the same duration token is collected. *)
Example note_then_duration :
  (fun item => dur_tokens <$> duration item) <$>
    head (read sample.ly_pitch 4
            (init (sample.flat [sample.note_c; sample.dur_4]))).1
  = Some (Some [sample.dur_4]).
Proof. reflexivity. Qed.

(** ** String values *)

(** [unescape] removes the backslash a [Character] token starts with,
    and only that one character; any other token is kept whole. *)
Lemma unescape_spec (t : token) :
  if isinstance (Some t) lex.Character && startswith_backslash (ttext t)
  then ttext t = String "\"%char (unescape t)
  else ttext t = unescape t.
Proof.
  unfold unescape.
  destruct (isinstance (Some t) lex.Character
            && startswith_backslash (ttext t)) eqn:Hc; [|done].
  apply andb_true_iff in Hc as [_ Hb].
  destruct (ttext t) as [|c rest]; [done|].
  cbn in Hb. apply Ascii.eqb_eq in Hb. by subst c.
Qed.

Lemma unescape_parts (ts : list token) :
  Forall2
    (fun t part =>
       if isinstance (Some t) lex.Character && startswith_backslash (ttext t)
       then ttext t = String "\"%char part
       else ttext t = part)
    ts (unescape <$> ts).
Proof.
  induction ts as [|t ts IH]; cbn [fmap list_fmap]; constructor;
    [apply unescape_spec | apply IH].
Qed.

(** The value [read] gives a [StringValue]. *)
Lemma dispatch_string_value (t : option token) (s : Source) (item : ItemObj) :
  (dispatch t s).1 = Some item ->
  cls item = StringValue ->
  value item = Some (string_value (tokens item)).
Proof.
  destruct t as [tok|]; [|done]. unfold dispatch, factory.
  destruct (consume s) as [ts s'] eqn:Hc.
  destruct tok as [[] txt pos]; cbn; try done; by intros [= <-].
Qed.

(** C7: the value of every [StringValue] that [read] yields is the
    concatenation of its tokens, the last one (the closing quote) left
    out, where a [Character] token that begins with a backslash
    contributes its text without that one backslash and every other
    token its whole text; the token run of the quoted string made of
    [a], an escaped quote and [b] has the value [a], quote, [b]. *)
Theorem string_value_strips_escape :
  (forall (P : LyPitch) (fuel : nat) (self : Reader),
     Forall
       (fun item =>
          cls item = StringValue ->
          exists parts : list string,
            value item = Some (foldr String.append EmptyString parts) /\
            Forall2
              (fun t part =>
                 if isinstance (Some t) lex.Character
                    && startswith_backslash (ttext t)
                 then ttext t = String "\"%char part
                 else ttext t = part)
              (removelast (tokens item)) parts)
       (read P fuel self).1)
  /\
  read sample.ly_pitch 2 (init sample.string_source)
  = ([ set_value
         (set_tokens (new_item StringValue sample.string_start)
            (sample.string_body.*1 ++ [sample.string_end]))
         (String "a"%char (String.append sample.dq "b")) ],
     StopIteration)
  /\
  string_value [Tok lex.Character "\\" 1; Tok lex.Token sample.dq 3] = "\".
Proof.
  split; [|split; reflexivity].
  intros P fuel self. apply read_Forall.
  - intros tok s item t1 s1 _ Hm.
    destruct (music_item_spec _ _ _ _ _ _ _ Hm) as (Hc & _).
    destruct (wait_for_duration_spec item t1 s1) as (ds & -> & _).
    cbn [cls set_duration]. intros Hs. rewrite Hs in Hc. elem_of_list.
  - intros t s item Hd Hs.
    exists (unescape <$> removelast (tokens item)).
    split; [by apply (dispatch_string_value t s) | apply unescape_parts].
Qed.

(** ** The tokens of an item and the source *)

Lemma run_of_suffix (item : ItemObj) (l1 l2 : list token) :
  l1 `suffix_of` l2 -> run_of item l1 -> run_of item l2.
Proof.
  intros [k ->] (tok & pre & post & Ht & ->).
  exists tok, (k ++ pre), post. split; [done|]. by rewrite <- app_assoc.
Qed.

Lemma at_hand_suffix (t : option token) (s : Source) :
  (upcoming s).*1 `suffix_of` at_hand t s.
Proof. destruct t; [apply suffix_cons_r|]; done. Qed.

(** The loops only move forward in the source. *)
Lemma pitch_loop_suffix (l : list (token * nat)) :
  forall (item : ItemObj) (t : option token) (d : nat),
    at_hand (pitch_loop item t d l).1.2 (pitch_loop item t d l).2
    `suffix_of` at_hand t {| depth := d; upcoming := l |}.
Proof.
  induction l as [|[tok d'] l IH]; intros item t d; cbn [pitch_loop].
  - done.
  - assert (Hstep : at_hand (Some tok) {| depth := d'; upcoming := l |}
                    `suffix_of`
                    at_hand t {| depth := d; upcoming := (tok, d') :: l |})
      by apply at_hand_suffix.
    repeat case_match; try done; (etrans; [apply IH | done]).
Qed.

Lemma duration_loop_suffix (l : list (token * nat)) :
  forall (ds : list token) (t : option token) (d : nat),
    at_hand (duration_loop ds t d l).1.2 (duration_loop ds t d l).2
    `suffix_of` at_hand t {| depth := d; upcoming := l |}.
Proof.
  induction l as [|[tok d'] l IH]; intros ds t d; cbn [duration_loop].
  - done.
  - assert (Hstep : at_hand (Some tok) {| depth := d'; upcoming := l |}
                    `suffix_of`
                    at_hand t {| depth := d; upcoming := (tok, d') :: l |})
      by apply at_hand_suffix.
    repeat case_match; try done; (etrans; [apply IH | done]).
Qed.

Lemma music_item_suffix (P : LyPitch) (lang : string) (tok : token)
    (s : Source) :
  at_hand (music_item P lang tok s).1.2 (music_item P lang tok s).2
  `suffix_of` at_hand (Some tok) s.
Proof.
  unfold music_item. destruct s as [d l].
  repeat case_match; cbn [fst snd]; try done;
    try (apply suffix_cons_r; done).
  match goal with
  | H : pitch_loop ?i ?t ?d' ?l' = _ |- _ =>
      pose proof (pitch_loop_suffix l' i t d') as Hs; rewrite H in Hs
  end.
  cbn [fst snd depth upcoming] in Hs. etrans; [exact Hs|].
  apply suffix_cons_r. done.
Qed.

Lemma wait_for_duration_suffix (item : ItemObj) (t : option token)
    (s : Source) :
  at_hand (wait_for_duration item t s).1.2 (wait_for_duration item t s).2
  `suffix_of` at_hand t s.
Proof.
  unfold wait_for_duration. destruct s as [d l].
  destruct (negb (truth t) || isinstance t lex.Duration); [|done].
  cbn [depth upcoming].
  match goal with
  | |- context [duration_loop ?ds t d l] =>
      pose proof (duration_loop_suffix l ds t d) as Hs;
      destruct (duration_loop ds t d l) as [[ds' t'] s']
  end.
  exact Hs.
Qed.

(** The item of [dispatch] is a run that starts with [t], and the tokens
    left are a suffix of those at hand. *)
Lemma dispatch_run (t : option token) (s : Source) :
  (upcoming (dispatch t s).2).*1 `suffix_of` (upcoming s).*1 /\
  forall item : ItemObj,
    (dispatch t s).1 = Some item -> run_of item (at_hand t s).
Proof.
  destruct t as [tok|]; [|done]. unfold dispatch, factory, consume.
  destruct (consume_loop_spec (depth s) (upcoming s) (depth s))
    as (taken & Hl & Hts & _).
  destruct (consume_loop (depth s) (depth s) (upcoming s)) as [ts s'].
  cbn [fst snd] in *. subst ts.
  assert (Happ : (upcoming s).*1 = taken.*1 ++ (upcoming s').*1)
    by (rewrite Hl at 1; apply fmap_app).
  assert (Hsuf' : (upcoming s').*1 `suffix_of` (upcoming s).*1)
    by (rewrite Happ; apply suffix_app_r; done).
  repeat case_match; cbn [fst snd]; (split; [done|]); try done;
    intros item [= <-]; exists tok, []; cbn [at_hand app];
    first [ by exists (upcoming s').*1; cbn; rewrite Happ
          | by exists (upcoming s).*1 ].
Qed.

Lemma read_loop_runs (P : LyPitch) (lang : string) (fuel : nat) :
  forall (t : option token) (s : Source),
    Forall
      (fun item =>
         run_of item (at_hand t s) /\
         (cls item ∈ [Note; Rest; Skip; Q] -> tokens item = []))
      (read_loop P fuel lang t s).1.
Proof.
  induction fuel as [|fuel IH]; intros t s; cbn [read_loop]; [constructor|].
  destruct t as [tok|].
  - destruct (isinstance (Some tok) lex.MusicItem).
    + pose proof (music_item_suffix P lang tok s) as Hs1.
      destruct (music_item P lang tok s) as [[[item|] t1] s1] eqn:Hm;
        cbn [fst snd] in Hs1.
      * destruct (music_item_spec _ _ _ _ _ _ _ Hm)
          as (_ & Ht & Hts & _).
        pose proof (wait_for_duration_suffix item t1 s1) as Hs2.
        destruct (wait_for_duration_spec item t1 s1) as (ds & Hitem & _).
        destruct (wait_for_duration item t1 s1) as [[item' t2] s2].
        cbn [fst snd] in *. subst item'. cbn [yield fst].
        constructor.
        -- split; [|done].
           exists tok, [], (upcoming s).*1.
           cbn [tokens token_ set_duration at_hand app].
           by rewrite Hts.
        -- eapply Forall_impl; [apply IH|].
           intros i [Hrun Hd]. split; [|done].
           eapply run_of_suffix; [|exact Hrun]. by etrans.
      * eapply Forall_impl; [apply IH|].
        intros i [Hrun Hd]. split; [|done]. by eapply run_of_suffix.
    + destruct (dispatch_run (Some tok) s) as [Hsuf Hrun].
      pose proof (dispatch_spec (Some tok) s) as Hspec.
      destruct (dispatch (Some tok) s) as [oi s1]. cbn [fst snd] in *.
      assert (Hrest :
        Forall
          (fun item =>
             run_of item (at_hand (Some tok) s) /\
             (cls item ∈ [Note; Rest; Skip; Q] -> tokens item = []))
          (match next s1 with
           | Some (t', s2) => read_loop P fuel lang (Some t') s2
           | None => ([], StopIteration)
           end).1).
      { unfold next. destruct (upcoming s1) as [|[t' d'] l'] eqn:Hup;
          [constructor|].
        eapply Forall_impl; [apply IH|].
        intros i [Hr Hd]. split; [|done].
        eapply run_of_suffix; [|exact Hr].
        etrans; [exact Hsuf | apply suffix_cons_r; done]. }
      destruct oi as [item|]; cbn [yield fst]; [|done].
      constructor; [|done]. split; [by apply Hrun|].
      destruct (Hspec item eq_refl) as (? & _ & _ & _ & _ & _ & Hc & _).
      intros Hc'. destruct (cls item); elem_of_list.
  - unfold next. destruct (upcoming s) as [|[t' d'] l'] eqn:Hup;
      [constructor|].
    eapply Forall_impl; [apply IH|].
    intros i [Hr Hd]. split; [|done]. cbn [at_hand] in *.
    by rewrite Hup.
Qed.

Lemma read_runs (P : LyPitch) (fuel : nat) (self : Reader) :
  Forall
    (fun item =>
       run_of item (upcoming (source self)).*1 /\
       (cls item ∈ [Note; Rest; Skip; Q] -> tokens item = []))
    (read P fuel self).1.
Proof.
  unfold read. destruct (next (source self)) as [[t s]|] eqn:Hnext;
    [|constructor].
  assert (Hhand : at_hand (Some t) s = (upcoming (source self)).*1).
  { unfold next in Hnext.
    destruct (upcoming (source self)) as [|[t' d'] l']; [done|].
    by injection Hnext as <- <-. }
  rewrite <- Hhand. apply read_loop_runs.
Qed.

Lemma append_assoc (a b c : string) :
  String.append (String.append a b) c = String.append a (String.append b c).
Proof.
  induction a as [|x a IH]; [reflexivity|].
  change (String x (String.append (String.append a b) c)
          = String x (String.append a (String.append b c))).
  by rewrite IH.
Qed.

Lemma text_of_app (l1 l2 : list token) :
  text_of (l1 ++ l2) = String.append (text_of l1) (text_of l2).
Proof.
  unfold text_of.
  induction l1 as [|t l1 IH]; cbn [app fmap list_fmap foldr]; [done|].
  by rewrite IH, append_assoc.
Qed.

(** C8 (as the claim states it, refuted): the [tokens] of every item
    would be, blanks aside, the tokens of a span of the source that
    covers the item, its own token included.  The [Note] read from [c4]
    has no [tokens] at all. *)
Lemma item_tokens_do_not_cover_item :
  ~ (forall (P : LyPitch) (fuel : nat) (self : Reader) (item : ItemObj),
       item ∈ (read P fuel self).1 ->
       exists pre span post : list token,
         (upcoming (source self)).*1 = pre ++ span ++ post /\
         (forall tok : token, token_ item = Some tok -> tok ∈ span) /\
         filter (fun t => is_space t = false) (tokens item)
         = filter (fun t => is_space t = false) span).
Proof.
  intros H.
  destruct (H sample.ly_pitch 3%nat
              (init (sample.flat [sample.note_c; sample.dur_4]))
              (set_duration
                 (set_pitch (new_item Note sample.note_c)
                    (Pitch_of (0%Z, (0 # 1)%Q)))
                 {| dur_tokens := [sample.dur_4] |}))
    as (pre & span & post & _ & Hin & Hf).
  { vm_compute. apply list_elem_of_here. }
  specialize (Hin sample.note_c eq_refl).
  assert (Hin' : sample.note_c ∈ filter (fun t => is_space t = false) span)
    by (apply list_elem_of_filter; split; [reflexivity | done]).
  rewrite <- Hf in Hin'. cbn in Hin'. by apply elem_of_nil in Hin'.
Qed.

Lemma span_of_suffix (item : ItemObj) (l1 l2 : list (token * nat)) :
  l1 `suffix_of` l2 -> span_of item l1 -> span_of item l2.
Proof.
  intros [k ->] (tok & entry & pre & taken & post & Ht & -> & Hts & Hc).
  exists tok, entry, (k ++ pre), taken, post.
  split; [done|]. split; [by rewrite <- app_assoc|]. done.
Qed.

Lemma at_hand_depth_suffix (t : option token) (s : Source) :
  upcoming s `suffix_of` at_hand_depth t s.
Proof. destruct t; [apply suffix_cons_r|]; done. Qed.

Lemma pitch_loop_span (l : list (token * nat)) :
  forall (item : ItemObj) (t : option token) (d : nat),
    at_hand_depth (pitch_loop item t d l).1.2 (pitch_loop item t d l).2
    `suffix_of` at_hand_depth t {| depth := d; upcoming := l |}.
Proof.
  induction l as [|[tok d'] l IH]; intros item t d; cbn [pitch_loop].
  - done.
  - assert (Hstep : at_hand_depth (Some tok) {| depth := d'; upcoming := l |}
                    `suffix_of`
                    at_hand_depth t
                      {| depth := d; upcoming := (tok, d') :: l |})
      by apply at_hand_depth_suffix.
    repeat case_match; try done; (etrans; [apply IH | done]).
Qed.

Lemma duration_loop_span (l : list (token * nat)) :
  forall (ds : list token) (t : option token) (d : nat),
    at_hand_depth (duration_loop ds t d l).1.2 (duration_loop ds t d l).2
    `suffix_of` at_hand_depth t {| depth := d; upcoming := l |}.
Proof.
  induction l as [|[tok d'] l IH]; intros ds t d; cbn [duration_loop].
  - done.
  - assert (Hstep : at_hand_depth (Some tok) {| depth := d'; upcoming := l |}
                    `suffix_of`
                    at_hand_depth t
                      {| depth := d; upcoming := (tok, d') :: l |})
      by apply at_hand_depth_suffix.
    repeat case_match; try done; (etrans; [apply IH | done]).
Qed.

Lemma music_item_span (P : LyPitch) (lang : string) (tok : token)
    (s : Source) :
  at_hand_depth (music_item P lang tok s).1.2 (music_item P lang tok s).2
  `suffix_of` at_hand_depth (Some tok) s.
Proof.
  unfold music_item. destruct s as [d l].
  repeat case_match; cbn [fst snd]; try done;
    try (apply suffix_cons_r; done).
  match goal with
  | H : pitch_loop ?i ?t ?d' ?l' = _ |- _ =>
      pose proof (pitch_loop_span l' i t d') as Hs; rewrite H in Hs
  end.
  cbn [fst snd depth upcoming] in Hs. etrans; [exact Hs|].
  apply suffix_cons_r. done.
Qed.

Lemma wait_for_duration_span (item : ItemObj) (t : option token)
    (s : Source) :
  at_hand_depth (wait_for_duration item t s).1.2
    (wait_for_duration item t s).2
  `suffix_of` at_hand_depth t s.
Proof.
  unfold wait_for_duration. destruct s as [d l].
  destruct (negb (truth t) || isinstance t lex.Duration); [|done].
  cbn [depth upcoming].
  match goal with
  | |- context [duration_loop ?ds t d l] =>
      pose proof (duration_loop_span l ds t d) as Hs;
      destruct (duration_loop ds t d l) as [[ds' t'] s']
  end.
  exact Hs.
Qed.

Lemma music_item_opens_nothing (tok : token) :
  isinstance (Some tok) lex.MusicItem = true -> opens_construct tok = false.
Proof. destruct tok as [[] ? ?]; done. Qed.

(** What [consume] takes, in the words of [consumed_from]. *)
Lemma consume_consumed_from (s : Source) :
  exists taken : list (token * nat),
    upcoming s = taken ++ upcoming (consume s).2 /\
    (consume s).1 = taken.*1 /\
    consumed_from (depth s) taken (upcoming (consume s).2).
Proof.
  unfold consume.
  destruct (consume_loop_spec (depth s) (upcoming s) (depth s))
    as (taken & Hl & Hts & Hend).
  exists taken. split; [done|]. split; [done|].
  destruct Hend as [[Hall Hnil] | (pre & t & d' & -> & Hall & Hd & _)].
  - by left.
  - right. by exists pre, t, d'.
Qed.

(** The item of [dispatch] spans the construct that [t] opens, and the
    tokens left are a suffix of those of the source. *)
Lemma dispatch_span (tok : token) (s : Source) :
  upcoming (dispatch (Some tok) s).2 `suffix_of` upcoming s /\
  forall item : ItemObj,
    (dispatch (Some tok) s).1 = Some item ->
    span_of item (at_hand_depth (Some tok) s).
Proof.
  unfold dispatch, factory.
  destruct (consume_consumed_from s) as (taken & Hl & Hts & Hc).
  destruct (consume s) as [ts s']. cbn [fst snd] in *. subst ts.
  assert (Hsuf : upcoming s' `suffix_of` upcoming s)
    by (rewrite Hl; apply suffix_app_r; done).
  destruct tok as [[] txt pos];
    cbn [isinstance lex.issubclass tcls bool_decide decide_rel orb fst snd];
    (split; [done|]); try done; intros item [= <-];
    eexists _, (depth s), [];
    first [ exists taken, (upcoming s'); cbn [at_hand_depth app];
            split; [reflexivity|]; split; [by rewrite Hl at 1|];
            split; [reflexivity|]; exact Hc
          | exists [], (upcoming s); cbn [at_hand_depth app];
            split; [reflexivity|]; split; [reflexivity|];
            split; [reflexivity|]; reflexivity ].
Qed.

Lemma read_loop_spans (P : LyPitch) (lang : string) (fuel : nat) :
  forall (t : option token) (s : Source),
    Forall (fun item => span_of item (at_hand_depth t s))
      (read_loop P fuel lang t s).1.
Proof.
  induction fuel as [|fuel IH]; intros t s; cbn [read_loop]; [constructor|].
  destruct t as [tok|].
  - destruct (isinstance (Some tok) lex.MusicItem) eqn:Hmi.
    + pose proof (music_item_span P lang tok s) as Hs1.
      destruct (music_item P lang tok s) as [[[item|] t1] s1] eqn:Hm;
        cbn [fst snd] in Hs1.
      * destruct (music_item_spec _ _ _ _ _ _ _ Hm)
          as (_ & Ht & Hts & _).
        pose proof (wait_for_duration_span item t1 s1) as Hs2.
        destruct (wait_for_duration_spec item t1 s1) as (ds & Hitem & _).
        destruct (wait_for_duration item t1 s1) as [[item' t2] s2].
        cbn [fst snd] in *. subst item'. cbn [yield fst].
        constructor.
        -- exists tok, (depth s), [], [], (upcoming s).
           cbn [tokens token_ set_duration at_hand_depth app].
           rewrite Hts, (music_item_opens_nothing tok Hmi). done.
        -- eapply Forall_impl; [apply IH|].
           intros i Hrun. eapply span_of_suffix; [|exact Hrun]. by etrans.
      * eapply Forall_impl; [apply IH|].
        intros i Hrun. by eapply span_of_suffix.
    + destruct (dispatch_span tok s) as [Hsuf Hrun].
      destruct (dispatch (Some tok) s) as [oi s1]. cbn [fst snd] in *.
      assert (Hrest :
        Forall (fun item => span_of item (at_hand_depth (Some tok) s))
          (match next s1 with
           | Some (t', s2) => read_loop P fuel lang (Some t') s2
           | None => ([], StopIteration)
           end).1).
      { unfold next. destruct (upcoming s1) as [|[t' d'] l'] eqn:Hup;
          [constructor|].
        eapply Forall_impl; [apply IH|].
        intros i Hr. eapply span_of_suffix; [|exact Hr].
        cbn [at_hand_depth depth upcoming].
        etrans; [exact Hsuf | apply suffix_cons_r; done]. }
      destruct oi as [item|]; cbn [yield fst]; [|done].
      constructor; [by apply Hrun | done].
  - unfold next. destruct (upcoming s) as [|[t' d'] l'] eqn:Hup;
      [constructor|].
    eapply Forall_impl; [apply IH|].
    intros i Hr. cbn [at_hand_depth depth upcoming] in *. by rewrite Hup.
Qed.

Lemma read_spans (P : LyPitch) (fuel : nat) (self : Reader) :
  Forall (fun item => span_of item (upcoming (source self)))
    (read P fuel self).1.
Proof.
  unfold read, next.
  destruct (upcoming (source self)) as [|[t d] l]; [constructor|].
  apply (read_loop_spans P (language self) fuel (Some t)
           {| depth := d; upcoming := l |}).
Qed.

(** The classes of the items and of their tokens. *)
Lemma read_classes (P : LyPitch) (fuel : nat) (self : Reader) :
  Forall
    (fun item =>
       forall tok : token,
         token_ item = Some tok ->
         (cls item ∈ [Note; Rest; Skip; Q] -> opens_construct tok = false) /\
         (cls item = SchemeValue ->
          isinstance (Some tok) lex.SchemeStart = true) /\
         (cls item = StringValue ->
          isinstance (Some tok) lex.StringStart = true) /\
         (cls item = Comment -> isinstance (Some tok) lex.Comment = true))
    (read P fuel self).1.
Proof.
  apply read_Forall.
  - intros tok s item t1 s1 Hmi Hm.
    destruct (music_item_spec _ _ _ _ _ _ _ Hm) as (Hc & Ht & _).
    destruct (wait_for_duration_spec item t1 s1) as (ds & -> & _).
    cbn [cls token_ set_duration]. rewrite Ht. intros ? [= <-].
    split; [intros _; by apply music_item_opens_nothing|].
    repeat split; intros Hcls; rewrite Hcls in Hc; elem_of_list.
  - intros t s item. destruct t as [tok|]; [|done].
    unfold dispatch, factory. destruct (consume s) as [ts s'].
    destruct tok as [[] txt pos]; cbn; try done; intros [= <-];
      cbn; intros ? [= <-]; (repeat split; try done); intros Hcls;
      try done; elem_of_list.
Qed.

(** C8 (amended): for every item [read] yields, its token followed by
    its [tokens] is a run of consecutive tokens of the source, blanks
    included, so that the texts of these tokens, one after the other,
    are that part of the text of the source.  When the token opens a
    construct (a Scheme value, a block comment or a string) the [tokens]
    are those [consume] takes after it: all the tokens up to and
    including the first that brings the depth of the source below the
    depth after the opening token, or all that is left of the source;
    so a block comment is kept from its opening to its closing token.
    Otherwise the item has no [tokens]: a [Note], [Rest], [Skip] or [Q]
    never has, and a [Comment] of one token is that comment token. *)
Theorem item_tokens_are_source_run (P : LyPitch) (fuel : nat)
    (self : Reader) :
  Forall
    (fun item =>
       (exists (tok : token) (entry : nat)
               (pre taken post : list (token * nat)),
          token_ item = Some tok /\
          upcoming (source self) = pre ++ (tok, entry) :: taken ++ post /\
          tokens item = taken.*1 /\
          text_of (upcoming (source self)).*1
          = String.append (text_of pre.*1)
              (String.append (text_of (tok :: tokens item))
                 (text_of post.*1)) /\
          (if opens_construct tok then consumed_from entry taken post
           else tokens item = []) /\
          (cls item ∈ [SchemeValue; StringValue] ->
           opens_construct tok = true) /\
          (cls item = Comment -> isinstance (Some tok) lex.Comment = true))
       /\
       (cls item ∈ [Note; Rest; Skip; Q] -> tokens item = []))
    (read P fuel self).1.
Proof.
  eapply Forall_impl;
    [apply Forall_and; split; [apply read_spans | apply read_classes]|].
  intros item [(tok & entry & pre & taken & post & Ht & Hl & Hts & Hspan)
               Hcls]. cbn beta.
  destruct (Hcls tok Ht) as (Hmus & Hsch & Hstr & Hcom).
  split.
  - exists tok, entry, pre, taken, post.
    split; [done|]. split; [done|]. split; [done|]. split.
    { rewrite Hl, Hts. rewrite fmap_app, fmap_cons, fmap_app. cbn [fst].
      rewrite text_of_app.
      change (tok :: taken.*1 ++ post.*1)
        with ((tok :: taken.*1) ++ post.*1).
      by rewrite text_of_app. }
    split.
    { destruct (opens_construct tok); [done|]. by rewrite Hts, Hspan. }
    split; [|done].
    intros Hin. unfold opens_construct.
    apply elem_of_cons in Hin as [Hin|Hin].
    + by rewrite (Hsch Hin).
    + apply list_elem_of_singleton in Hin. rewrite (Hstr Hin).
      by rewrite !orb_true_r.
  - intros Hin. specialize (Hmus Hin). rewrite Hmus in Hspan.
    by rewrite Hts, Hspan.
Qed.

(** The comment of [c %{ x %} r]: the block comment is kept with all its
    tokens, the blank inside included. *)
Example block_comment_example :
  read sample.ly_pitch 5
    {| source :=
         {| depth := 1;
            upcoming :=
              [ (sample.note_c, 1); (sample.blank, 1);
                (Tok lex.BlockCommentStart "%{" 2, 2);
                (Tok lex.Comment " x " 4, 2); (Tok lex.Comment "%}" 7, 1);
                (sample.blank, 1); (sample.rest_r, 1) ]%nat |};
       language := "nederlands" |}
  = ([ set_duration
         (set_pitch (new_item Note sample.note_c) (Pitch_of (0%Z, (0 # 1)%Q)))
         {| dur_tokens := [] |};
       set_tokens (new_item Comment (Tok lex.BlockCommentStart "%{" 2))
         [Tok lex.Comment " x " 4; Tok lex.Comment "%}" 7];
       set_duration (new_item Rest sample.rest_r) {| dur_tokens := [] |} ],
     StopIteration).
Proof. reflexivity. Qed.

(** ** The end of [read] *)

Lemma resolves_suffix (P : LyPitch) (lang : string) (l1 l2 : list token) :
  l1 `suffix_of` l2 -> resolves P lang l2 -> resolves P lang l1.
Proof. intros [k ->] H. by apply Forall_app in H as [_ H]. Qed.

(** A music item whose name resolves, if it is a note, gives an item,
    and its token is done with. *)
Lemma music_item_some (P : LyPitch) (lang : string) (tok : token)
    (s : Source) :
  (tcls tok = lex.Note -> is_Some (pitchReader P lang tok)) ->
  exists (item : ItemObj) (t1 : option token) (s1 : Source),
    music_item P lang tok s = (Some item, t1, s1) /\
    at_hand t1 s1 `suffix_of` (upcoming s).*1.
Proof.
  intros Hres. unfold music_item. destruct s as [d l].
  case_bool_decide as Hn.
  - destruct (Hres Hn) as [r ->]. cbn [depth upcoming].
    match goal with
    | |- context [pitch_loop ?i None d l] =>
        pose proof (pitch_loop_suffix l i None d) as Hs;
        destruct (pitch_loop i None d l) as [[item' t'] s']
    end.
    by exists item', t', s'.
  - repeat case_match; eexists _, _, _; (split; [reflexivity | done]).
Qed.

(** With enough fuel [read_loop] comes to the end of the source. *)
Lemma read_loop_ends (P : LyPitch) (lang : string) (fuel : nat) :
  forall (t : option token) (s : Source),
    steps t s < fuel ->
    resolves P lang (at_hand t s) ->
    (read_loop P fuel lang t s).2 = StopIteration.
Proof.
  induction fuel as [|fuel IH]; intros t s Hfuel Hres; [lia|].
  cbn [read_loop]. destruct t as [tok|].
  - destruct (isinstance (Some tok) lex.MusicItem).
    + destruct (music_item_some P lang tok s) as (item & t1 & s1 & -> & Hs1).
      { by apply Forall_cons_1 in Hres as [? _]. }
      pose proof (wait_for_duration_suffix item t1 s1) as Hs2.
      destruct (wait_for_duration item t1 s1) as [[item' t2] s2].
      cbn [fst snd yield] in *.
      assert (Hs : at_hand t2 s2 `suffix_of` (upcoming s).*1) by by etrans.
      apply IH.
      * apply suffix_length in Hs. unfold steps in *. cbn [at_hand length] in *.
        destruct t2; lia.
      * eapply resolves_suffix; [|exact Hres].
        etrans; [exact Hs | apply suffix_cons_r; done].
    + destruct (dispatch_run (Some tok) s) as [Hsuf _].
      destruct (dispatch (Some tok) s) as [oi s1]. cbn [fst snd] in *.
      assert (Hk :
        (match next s1 with
         | Some (t', s2) => read_loop P fuel lang (Some t') s2
         | None => ([], StopIteration)
         end).2 = StopIteration).
      { unfold next. destruct (upcoming s1) as [|[t' d'] l'] eqn:Hup; [done|].
        apply IH.
        - apply suffix_length in Hsuf. unfold steps in *.
          cbn [at_hand upcoming fmap list_fmap length] in *. lia.
        - eapply resolves_suffix; [|exact Hres].
          etrans; [exact Hsuf | apply suffix_cons_r; done]. }
      by destruct oi.
  - unfold next. destruct (upcoming s) as [|[t' d'] l'] eqn:Hup; [done|].
    apply IH.
    + unfold steps in *. cbn [at_hand upcoming] in *. rewrite Hup in Hfuel.
      cbn [fmap list_fmap length] in *. lia.
    + cbn [at_hand upcoming] in *. by rewrite Hup in Hres.
Qed.

Lemma yield_snd (oi : option ItemObj) (k : list ItemObj * Terminal) :
  (yield oi k).2 = k.2.
Proof. by destruct oi. Qed.

(** A run that has ended is not changed by more fuel. *)
Lemma read_loop_more_fuel (P : LyPitch) (lang : string) (fuel : nat) :
  forall (t : option token) (s : Source) (fuel' : nat),
    (read_loop P fuel lang t s).2 = StopIteration ->
    fuel <= fuel' ->
    read_loop P fuel' lang t s = read_loop P fuel lang t s.
Proof.
  induction fuel as [|fuel IH]; intros t s fuel' Hend Hle; [done|].
  destruct fuel' as [|fuel']; [lia|].
  assert (Hle' : fuel <= fuel') by lia.
  cbn [read_loop] in *. destruct t as [tok|].
  - destruct (isinstance (Some tok) lex.MusicItem).
    + destruct (music_item P lang tok s) as [[[item|] t1] s1].
      * destruct (wait_for_duration item t1 s1) as [[item' t2] s2].
        rewrite yield_snd in Hend. by rewrite (IH _ _ fuel').
      * by apply IH.
    + destruct (dispatch (Some tok) s) as [oi s1].
      rewrite yield_snd in Hend.
      destruct (next s1) as [[t' s2]|]; [|done].
      by rewrite (IH _ _ fuel').
  - destruct (next s) as [[t' s2]|]; [|done]. by apply IH.
Qed.

(** When every [Note] token of the source has a name of the reader's
    language, [read] returns: with more fuel than twice the number of
    tokens it ends with [StopIteration], and its items do not depend on
    the fuel. *)
Theorem read_ends_when_notes_resolve (P : LyPitch) (self : Reader) :
  resolves P (language self) (upcoming (source self)).*1 ->
  exists items : list ItemObj,
    forall fuel : nat,
      2 * length (upcoming (source self)) < fuel ->
      read P fuel self = (items, StopIteration).
Proof.
  intros Hres. unfold read, next.
  destruct (upcoming (source self)) as [|[t d] l] eqn:Hup.
  - by exists [].
  - set (s := {| depth := d; upcoming := l |}).
    set (n := S (2 * length ((t, d) :: l))).
    assert (Hn : (read_loop P n (language self) (Some t) s).2 = StopIteration).
    { apply read_loop_ends; [|done].
      unfold steps, n, s. cbn [at_hand upcoming length].
      rewrite length_fmap. lia. }
    exists (read_loop P n (language self) (Some t) s).1.
    intros fuel Hfuel.
    rewrite (read_loop_more_fuel P (language self) n) by (done || (unfold n; lia)).
    rewrite <- Hn. by destruct (read_loop P n (language self) (Some t) s).
Qed.

Lemma read_ends_when_notes_resolve_witness :
  exists items : list ItemObj,
    forall fuel : nat,
      2 * length
            (upcoming
               (source
                  (init (sample.flat [sample.note_c; sample.octave_up2;
                                      sample.dur_4; sample.rest_r])))) < fuel ->
      read sample.ly_pitch fuel
        (init (sample.flat [sample.note_c; sample.octave_up2;
                            sample.dur_4; sample.rest_r]))
      = (items, StopIteration).
Proof.
  apply (read_ends_when_notes_resolve sample.ly_pitch
           (init (sample.flat [sample.note_c; sample.octave_up2;
                               sample.dur_4; sample.rest_r]))).
  repeat constructor; try discriminate. intros _. by eexists.
Defined.

(** ** Sources without music items *)

(** The token of a durable item is a music item. *)
Lemma durable_token_is_music_item (P : LyPitch) (fuel : nat) (self : Reader) :
  Forall
    (fun item =>
       cls item ∈ [Note; Rest; Skip; Q] ->
       exists tok : token,
         token_ item = Some tok /\
         isinstance (Some tok) lex.MusicItem = true)
    (read P fuel self).1.
Proof.
  apply read_Forall.
  - intros tok s item t1 s1 Hmi Hm.
    destruct (music_item_spec _ _ _ _ _ _ _ Hm) as (_ & Ht & _).
    destruct (wait_for_duration_spec item t1 s1) as (ds & -> & _).
    intros _. by exists tok.
  - intros t s item Hd.
    destruct (dispatch_spec _ _ _ Hd) as (tok & _ & _ & _ & _ & _ & Hc & _).
    intros Hc'. destruct (cls item); elem_of_list.
Qed.

(** When no token of the source is a music item (note, rest, skip,
    spacer or chord repetition), [read] yields no durable item: its
    items are the Scheme values, comments and strings of the source. *)
Theorem no_music_item_no_durable (P : LyPitch) (fuel : nat) (self : Reader) :
  Forall (fun t => isinstance (Some t) lex.MusicItem = false)
    (upcoming (source self)).*1 ->
  Forall
    (fun item =>
       (cls item ∉ [Note; Rest; Skip; Q]) /\
       cls item ∈ [SchemeValue; Comment; StringValue])
    (read P fuel self).1.
Proof.
  intros Hsrc.
  pose proof (read_runs P fuel self) as Hruns.
  pose proof (durable_token_is_music_item P fuel self) as Hdur.
  pose proof (read_yields_kinds P fuel self) as Hkinds.
  pose proof (conj Hruns (conj Hdur Hkinds)) as H.
  rewrite <- !Forall_and in H.
  eapply Forall_impl; [exact H|]. cbn beta.
  intros item ([(tok & pre & post & Ht & Hrun) _] & Hmusic & Hkind).
  assert (Hnot : cls item ∉ [Note; Rest; Skip; Q]).
  { intros Hc. destruct (Hmusic Hc) as (tok' & Ht' & Hmi).
    rewrite Ht in Ht'. injection Ht' as <-.
    rewrite Hrun in Hsrc. apply Forall_app in Hsrc as [_ Hsrc].
    apply Forall_cons_1 in Hsrc as [Hf _]. congruence. }
  split; [done|]. destruct (cls item); elem_of_list.
Qed.

Lemma no_music_item_no_durable_witness :
  Forall
    (fun item =>
       (cls item ∉ [Note; Rest; Skip; Q]) /\
       cls item ∈ [SchemeValue; Comment; StringValue])
    (read sample.ly_pitch 3 (init sample.scheme_source)).1.
Proof.
  apply (no_music_item_no_durable sample.ly_pitch 3
           (init sample.scheme_source)).
  unfold sample.scheme_source, sample.scheme_body, sample.scheme_rest.
  repeat constructor.
Defined.

(** ** Language changes in a row *)

Lemma set_languages_snoc (P : LyPitch) (self : Reader) (langs : list string)
    (lang : string) :
  set_languages P self (langs ++ [lang])
  = (set_language P (set_languages P self langs) lang).2.
Proof. unfold set_languages. by rewrite foldl_app. Qed.

(** After any number of calls of [set_language] the source of the reader
    is untouched and its language is the last of the requested names
    that is in the pitch table, or the language it had when none is; so
    the language is never a name outside the table unless the reader
    started with it. *)
Theorem set_language_last_known_wins (P : LyPitch) (self : Reader)
    (langs : list string) :
  source (set_languages P self langs) = source self /\
  language (set_languages P self langs)
  = default (language self)
      (last (filter (fun lang => lang ∈ pitchInfo P) langs)) /\
  (language (set_languages P self langs) ∈ pitchInfo P \/
   language (set_languages P self langs) = language self).
Proof.
  induction langs as [|lang langs IH] using rev_ind.
  - repeat split; by right.
  - destruct IH as (IHs & IHl & IHin).
    rewrite set_languages_snoc, filter_app. unfold set_language.
    rewrite filter_cons, filter_nil.
    destruct (decide (lang ∈ pitchInfo P)) as [Hin|Hout].
    + cbn [snd source language]. rewrite last_snoc.
      repeat split; [done | by left].
    + cbn [snd]. rewrite app_nil_r. by repeat split.
Qed.

(** ** Tokens outside music items *)

(** [read] does not look at the depth the source reports before it
    reads the first token. *)
Lemma read_depth_irrelevant (P : LyPitch) (fuel : nat) (lang : string)
    (d1 d2 : nat) (l : list (token * nat)) :
  read P fuel {| source := {| depth := d1; upcoming := l |}; language := lang |}
  = read P fuel {| source := {| depth := d2; upcoming := l |}; language := lang |}.
Proof. reflexivity. Qed.

Lemma dispatch_falls_through (tok : token) (s : Source) :
  falls_through tok = true ->
  isinstance (Some tok) lex.MusicItem = false /\
  dispatch (Some tok) s = (None, s).
Proof.
  unfold falls_through, dispatch. destruct tok as [[] txt pos]; done.
Qed.

(** Tokens that are no music items and start no Scheme value, comment
    or string leave no trace: reading a source that begins with such
    tokens gives what reading the source after them gives (one step of
    the loop is spent on each of them). *)
Theorem fallthrough_tokens_are_skipped (P : LyPitch) (fuel : nat)
    (lang : string) (d0 : nat) (pre rest : list (token * nat)) :
  Forall (fun td => falls_through td.1 = true) pre ->
  read P (length pre + fuel)
    {| source := {| depth := d0; upcoming := pre ++ rest |};
       language := lang |}
  = read P fuel
      {| source := {| depth := d0; upcoming := rest |}; language := lang |}.
Proof.
  intros Hpre. revert d0.
  induction Hpre as [|[tok d] pre Htok _ IH]; intros d0; [done|].
  cbn [fst] in Htok.
  destruct (dispatch_falls_through tok {| depth := d; upcoming := pre ++ rest |}
              Htok) as [Hmi Hd].
  cbn [length Nat.add app]. rewrite read_dispatch by done.
  rewrite Hd. cbn [fst snd yield]. rewrite IH.
  apply read_depth_irrelevant.
Qed.

Lemma fallthrough_tokens_are_skipped_witness :
  read sample.ly_pitch (length [(sample.blank, 1); (sample.bar_check, 1)] + 2)
    {| source :=
         {| depth := 1;
            upcoming :=
              [(sample.blank, 1); (sample.bar_check, 1)]
              ++ [(sample.rest_r, 1)] |};
       language := "nederlands" |}
  = read sample.ly_pitch 2
      {| source := {| depth := 1; upcoming := [(sample.rest_r, 1)] |};
         language := "nederlands" |}.
Proof.
  apply (fallthrough_tokens_are_skipped sample.ly_pitch 2 "nederlands" 1
           [(sample.blank, 1); (sample.bar_check, 1)] [(sample.rest_r, 1)]).
  repeat constructor.
Defined.

(** A block comment or a string whose last token brings the depth
    below the depth at entry gives one item, a [Comment] or a
    [StringValue], whose [tokens] are those after the opening token up
    to and including that last token; the value of the string is the
    concatenation of the tokens between the opening and the closing
    token, the backslash of an escape left out; a comment has no value.
    That item is the first [read] yields, and the items after it and
    the end of the run are those of reading the tokens that follow. *)
Theorem terminated_comment_or_string (P : LyPitch) (fuel : nat)
    (lang : string) (start close : token) (d0 entry dl : nat)
    (body rest : list (token * nat)) :
  isinstance (Some start) lex.BlockCommentStart
  || isinstance (Some start) lex.StringStart = true ->
  Forall (fun td => (entry <= td.2)%nat) body ->
  (dl < entry)%nat ->
  exists item : ItemObj,
    read P (S fuel)
      {| source :=
           {| depth := d0;
              upcoming := (start, entry) :: body ++ (close, dl) :: rest |};
         language := lang |}
    = (item
       :: (read P fuel
             {| source := {| depth := dl; upcoming := rest |};
                language := lang |}).1,
       (read P fuel
          {| source := {| depth := dl; upcoming := rest |};
             language := lang |}).2) /\
    token_ item = Some start /\
    tokens item = body.*1 ++ [close] /\
    cls item
    = (if isinstance (Some start) lex.StringStart then StringValue
       else Comment) /\
    value item
    = (if isinstance (Some start) lex.StringStart
       then Some (foldr String.append EmptyString (unescape <$> body.*1))
       else None).
Proof.
  intros Hopen Hbody Hdl.
  assert (Hmi : isinstance (Some start) lex.MusicItem = false)
    by (destruct start as [[] ? ?]; done).
  rewrite read_dispatch by done.
  unfold dispatch, factory, consume. cbn [depth upcoming].
  rewrite consume_loop_run by done.
  destruct start as [[] txt pos]; try done;
    cbn [isinstance lex.issubclass tcls bool_decide decide_rel orb fst snd];
    eexists; (split; [reflexivity|]); (split; [reflexivity|]);
    (split; [reflexivity|]); (split; [reflexivity|]); try reflexivity.
  cbn [value set_value tokens set_tokens new_item]. unfold string_value.
  by rewrite removelast_last.
Qed.

Lemma terminated_comment_or_string_witness :
  exists item : ItemObj,
    read sample.ly_pitch 3
      {| source :=
           {| depth := 1;
              upcoming :=
                (sample.string_start, 2) :: sample.string_body
                ++ (sample.string_end, 1) :: [(sample.rest_r, 1)] |};
         language := "nederlands" |}
    = (item
       :: (read sample.ly_pitch 2
             {| source := {| depth := 1; upcoming := [(sample.rest_r, 1)] |};
                language := "nederlands" |}).1,
       (read sample.ly_pitch 2
          {| source := {| depth := 1; upcoming := [(sample.rest_r, 1)] |};
             language := "nederlands" |}).2) /\
    token_ item = Some sample.string_start /\
    tokens item = sample.string_body.*1 ++ [sample.string_end] /\
    cls item
    = (if isinstance (Some sample.string_start) lex.StringStart
       then StringValue else Comment) /\
    value item
    = (if isinstance (Some sample.string_start) lex.StringStart
       then Some (foldr String.append EmptyString
                    (unescape <$> sample.string_body.*1))
       else None).
Proof.
  apply (terminated_comment_or_string sample.ly_pitch 2 "nederlands"
           sample.string_start sample.string_end 1 2 1
           sample.string_body [(sample.rest_r, 1)]).
  - reflexivity.
  - unfold sample.string_body. repeat constructor.
  - lia.
Defined.

(** ** The attributes of an item *)

Lemma pitch_loop_agrees (l : list (token * nat)) :
  forall (item : ItemObj) (t : option token) (d : nat),
    is_Some (pitch item) -> pitch_agrees item ->
    is_Some (pitch (pitch_loop item t d l).1.1) /\
    pitch_agrees (pitch_loop item t d l).1.1.
Proof.
  induction l as [|[tok d'] l IH]; intros item t d Hp Ha; cbn [pitch_loop].
  - done.
  - assert (Hstep : forall item',
              item' = set_octave item tok \/ item' = set_accidental item tok
              \/ item' = set_octavecheck item tok ->
              is_Some (pitch item') /\ pitch_agrees item').
    { unfold pitch_agrees in *. destruct Hp as [p Hp]. rewrite Hp in Ha.
      destruct Ha as (Ho & Hacc & Hc).
      intros item' [-> | [-> | ->]]; cbn; rewrite Hp; cbn; by repeat split. }
    repeat case_match; try done;
      first [ by apply IH
            | apply IH; apply Hstep; auto
            | apply Hstep; auto ].
Qed.

(** A durable item before its duration is set. *)
Lemma music_item_attributes (P : LyPitch) (lang : string) (tok : token)
    (s : Source) (item : ItemObj) (t1 : option token) (s1 : Source) :
  music_item P lang tok s = (Some item, t1, s1) ->
  value item = None /\
  ((cls item = Note /\ is_Some (pitch item) /\ pitch_agrees item) \/
   (cls item <> Note /\ no_note_attributes item)).
Proof.
  unfold music_item. case_bool_decide as Hn.
  - destruct (pitchReader P lang tok) as [r|] eqn:Hr; [|done].
    set (item0 := set_pitch (factory Note tok false s).1 (Pitch_of r)).
    pose proof (pitch_loop_same_head (upcoming s) item0 None (depth s))
      as (Hc & _ & _ & _ & Hv).
    destruct (pitch_loop_agrees (upcoming s) item0 None (depth s))
      as [Hp Ha]; [by eexists | by repeat split |].
    destruct (pitch_loop item0 None (depth s) (upcoming s))
      as [[item' t'] s'].
    intros [= <- <- <-]. cbn [fst] in *. split; [by rewrite Hv|].
    left. by rewrite Hc.
  - repeat case_match; intros [= <- <- <-]; (split; [done|]);
      right; by repeat split.
Qed.

Lemma dispatch_attributes (t : option token) (s : Source) (item : ItemObj) :
  (dispatch t s).1 = Some item ->
  no_note_attributes item /\ duration item = None /\
  (is_Some (value item) <-> cls item = StringValue).
Proof.
  destruct t as [tok|]; [|done]. unfold dispatch, factory.
  destruct (consume s) as [ts s'].
  destruct tok as [[] txt pos]; cbn; try done; intros [= <-]; cbn;
    (split; [by repeat split|]); (split; [done|]);
    split; first [ by intros [? ?] | done | by eexists ].
Qed.

(** The attributes of every item [read] yields fit its class: it has a
    pitch exactly when it is a [Note], a value exactly when it is a
    [StringValue] and a duration exactly when it is a [Note], [Rest],
    [Skip] or [Q]; only a [Note] has an octave, accidental or
    octave-check token; and the pitch of a [Note] agrees with these
    tokens: its octave is the number of the octave token (0 without
    one), its accidental is the accidental token and its octave check
    the number of the octave-check token. *)
Theorem item_attributes_fit_class (P : LyPitch) (fuel : nat) (self : Reader) :
  Forall
    (fun item =>
       (is_Some (pitch item) <-> cls item = Note) /\
       (is_Some (value item) <-> cls item = StringValue) /\
       (is_Some (duration item) <-> cls item ∈ [Note; Rest; Skip; Q]) /\
       (cls item = Note \/
        (octave_token item = None /\ accidental_token item = None /\
         octavecheck_token item = None)) /\
       match pitch item with
       | None => True
       | Some p =>
           octave p = from_option octaveToNum 0%Z (octave_token item) /\
           accidental p = accidental_token item /\
           octavecheck p = octaveToNum <$> octavecheck_token item
       end)
    (read P fuel self).1.
Proof.
  apply read_Forall.
  - intros tok s item t1 s1 _ Hm.
    destruct (music_item_spec _ _ _ _ _ _ _ Hm) as (Hc & _).
    destruct (music_item_attributes _ _ _ _ _ _ _ Hm) as (Hv & Hshape).
    destruct (wait_for_duration_spec item t1 s1) as (ds & -> & _).
    cbn [cls pitch value duration octave_token accidental_token
         octavecheck_token set_duration].
    rewrite Hv.
    assert (Hnv : cls item <> StringValue)
      by (intros Hs; rewrite Hs in Hc; elem_of_list).
    destruct Hshape as [(Hn & Hp & Ha) | (Hn & Hp & Ho & Hacc & Hk)].
    + repeat split; try done; try (by intros [? ?]); by left.
    + rewrite Hp. repeat split; try done; try (by intros [? ?]).
      right. by repeat split.
  - intros t s item Hd.
    destruct (dispatch_spec _ _ _ Hd) as (tok & _ & _ & _ & _ & _ & Hc & _).
    destruct (dispatch_attributes _ _ _ Hd)
      as ((Hp & Ho & Hacc & Hk) & Hdur & Hv).
    rewrite Hp, Hdur.
    repeat split; try done; try (by intros [? ?]);
      try (by intros ->; elem_of_list);
      try (by intros Hc'; destruct (cls item); elem_of_list).
    right. by repeat split.
Qed.

(** ** Durations and pitch tokens in a row *)

(** At the end of the source, with nothing left to act upon in [t],
    [read] ends. *)
Lemma read_loop_spent (P : LyPitch) (fuel : nat) (lang : string)
    (t : option token) (s : Source) :
  spent t = true ->
  upcoming s = [] ->
  read_loop P (S fuel) lang t s = ([], StopIteration).
Proof.
  intros Ht Hs. cbn [read_loop]. unfold next.
  destruct t as [tok|]; [|by rewrite Hs].
  destruct (dispatch_falls_through tok s Ht) as [-> ->].
  by rewrite Hs.
Qed.

(** The duration loop over a run of duration tokens and blanks: it
    appends the duration tokens, and hands the token after the run, if
    there is one, back to [read]. *)
Lemma duration_loop_run (P : LyPitch) (fuel : nat) (lang : string)
    (run tail : list (token * nat)) :
  Forall
    (fun td =>
       isinstance (Some td.1) lex.Duration
       || isinstance (Some td.1) lex.Space = true) run ->
  match tail with
  | [] => True
  | (h, _) :: _ =>
      isinstance (Some h) lex.Duration = false /\
      isinstance (Some h) lex.Space = false
  end ->
  forall (ds : list token) (t : option token) (d d1 : nat),
    spent t = true ->
    (duration_loop ds t d (run ++ tail)).1.1
    = ds ++ filter (fun x => isinstance (Some x) lex.Duration = true) run.*1
    /\
    read_loop P (S fuel) lang
      (duration_loop ds t d (run ++ tail)).1.2
      (duration_loop ds t d (run ++ tail)).2
    = read P (S fuel)
        {| source := {| depth := d1; upcoming := tail |}; language := lang |}.
Proof.
  intros Hrun Htail.
  induction Hrun as [|[x dx] run Hx _ IH]; intros ds t d d1 Ht.
  - cbn [app fmap list_fmap]. rewrite filter_nil, app_nil_r.
    destruct tail as [|[h dh] rest]; cbn [duration_loop].
    + split; [done|]. cbn [fst snd]. by apply read_loop_spent.
    + destruct Htail as [-> ->]. cbn [negb fst snd]. done.
  - cbn [fst] in Hx. cbn [app duration_loop fmap list_fmap].
    assert (Hsp : spent (Some x) = true)
      by (destruct x as [[] ? ?]; done).
    rewrite filter_cons.
    destruct (isinstance (Some x) lex.Duration) eqn:Hd.
    + destruct (IH (ds ++ [x]) (Some x) dx d1 Hsp) as [IH1 IH2].
      rewrite IH1, IH2. rewrite decide_True by done.
      by rewrite <- app_assoc.
    + cbn [orb] in Hx. rewrite Hx. cbn [negb].
      destruct (IH ds (Some x) dx d1 Hsp) as [IH1 IH2].
      rewrite IH1, IH2. cbn [fst]. rewrite Hd. by rewrite decide_False by done.
Qed.

(** A rest, a skip, a spacer or a chord repetition followed by duration
    tokens and blanks: the item has these duration tokens, in their
    order and without the blanks, as its duration; it is the first item
    [read] yields, and the items after it and the end of the run are
    those of reading the source from the token after the run. *)
Theorem rest_collects_durations (P : LyPitch) (fuel : nat) (lang : string)
    (tok : token) (d0 d : nat) (run tail : list (token * nat)) :
  isinstance (Some tok) lex.MusicItem = true ->
  tcls tok <> lex.Note ->
  Forall
    (fun td =>
       isinstance (Some td.1) lex.Duration
       || isinstance (Some td.1) lex.Space = true) run ->
  match tail with
  | [] => True
  | (h, _) :: _ =>
      isinstance (Some h) lex.Duration = false /\
      isinstance (Some h) lex.Space = false
  end ->
  exists item : ItemObj,
    read P (S (S fuel))
      {| source := {| depth := d0; upcoming := (tok, d) :: run ++ tail |};
         language := lang |}
    = (item
       :: (read P (S fuel)
             {| source := {| depth := d0; upcoming := tail |};
                language := lang |}).1,
       (read P (S fuel)
          {| source := {| depth := d0; upcoming := tail |};
             language := lang |}).2) /\
    token_ item = Some tok /\
    cls item ∈ [Rest; Skip; Q] /\
    duration item
    = Some {| dur_tokens :=
                filter (fun x => isinstance (Some x) lex.Duration = true)
                  run.*1 |}.
Proof.
  intros Hmi Hn Hrun Htail.
  unfold read. cbn [next source upcoming language].
  change (read_loop P (S (S fuel)) lang (Some tok)
            {| depth := d; upcoming := run ++ tail |})
    with (if isinstance (Some tok) lex.MusicItem then
            match music_item P lang tok
                    {| depth := d; upcoming := run ++ tail |} with
            | (Some item, t1, s1) =>
                let '(item', t2, s2) := wait_for_duration item t1 s1 in
                yield (Some item') (read_loop P (S fuel) lang t2 s2)
            | (None, t1, s1) => read_loop P (S fuel) lang t1 s1
            end
          else
            let '(oi, s1) :=
              dispatch (Some tok) {| depth := d; upcoming := run ++ tail |} in
            yield oi
              match next s1 with
              | Some (t', s2) => read_loop P (S fuel) lang (Some t') s2
              | None => ([], StopIteration)
              end).
  rewrite Hmi.
  destruct (duration_loop_run P fuel lang run tail Hrun Htail [] None d d0
              eq_refl) as [Hds Hk].
  assert (Hitem : exists c : ItemClass,
             c ∈ [Rest; Skip; Q] /\
             music_item P lang tok {| depth := d; upcoming := run ++ tail |}
             = (Some (new_item c tok), None,
                {| depth := d; upcoming := run ++ tail |})).
  { unfold music_item. rewrite bool_decide_eq_false_2 by done.
    repeat case_match; eexists; (split; [|reflexivity]); elem_of_list. }
  destruct Hitem as (c & Hc & ->).
  unfold wait_for_duration. cbn [truth negb orb depth upcoming].
  destruct (duration_loop [] None d (run ++ tail)) as [[ds' t'] s'].
  cbn [fst snd] in *. subst ds'.
  exists (set_duration (new_item c tok)
            {| dur_tokens :=
                 filter (fun x => isinstance (Some x) lex.Duration = true)
                   run.*1 |}).
  split; [by rewrite Hk|]. by repeat split.
Qed.

Lemma rest_collects_durations_witness :
  exists item : ItemObj,
    read sample.ly_pitch 3
      {| source :=
           {| depth := 1;
              upcoming :=
                (sample.rest_r, 1)
                :: [(sample.dur_4, 1); (sample.blank, 1); (sample.dur_dot, 1)]
                ++ [(sample.bar_check, 1); (sample.rest_r, 1)] |};
         language := "nederlands" |}
    = (item
       :: (read sample.ly_pitch 2
             {| source :=
                  {| depth := 1;
                     upcoming := [(sample.bar_check, 1); (sample.rest_r, 1)] |};
                language := "nederlands" |}).1,
       (read sample.ly_pitch 2
          {| source :=
               {| depth := 1;
                  upcoming := [(sample.bar_check, 1); (sample.rest_r, 1)] |};
             language := "nederlands" |}).2) /\
    token_ item = Some sample.rest_r /\
    cls item ∈ [Rest; Skip; Q] /\
    duration item
    = Some {| dur_tokens :=
                filter (fun x => isinstance (Some x) lex.Duration = true)
                  [(sample.dur_4, 1); (sample.blank, 1);
                   (sample.dur_dot, 1)].*1 |}.
Proof.
  apply (rest_collects_durations sample.ly_pitch 1 "nederlands"
           sample.rest_r 1 1
           [(sample.dur_4, 1); (sample.blank, 1); (sample.dur_dot, 1)]
           [(sample.bar_check, 1); (sample.rest_r, 1)]).
  - reflexivity.
  - discriminate.
  - repeat constructor.
  - split; reflexivity.
Defined.

Lemma apply_marks_cons (item : ItemObj) (m : token) (marks : list token) :
  apply_marks item (m :: marks)
  = apply_marks
      (if isinstance (Some m) lex.Octave then set_octave item m
       else if isinstance (Some m) lex.Accidental then set_accidental item m
       else item)
      marks.
Proof. reflexivity. Qed.

(** The loop over the pitch tokens goes through a run of octave tokens,
    accidental tokens and blanks, and leaves in [t] a token that is no
    duration and nothing [read] would act upon. *)
Lemma pitch_loop_marks (marks l : list (token * nat)) :
  Forall (fun td => is_mark td.1 = true) marks ->
  forall (item : ItemObj) (t : option token) (d : nat),
    spent t = true -> isinstance t lex.Duration = false ->
    exists (t' : option token) (d' : nat),
      pitch_loop item t d (marks ++ l)
      = pitch_loop (apply_marks item marks.*1) t' d' l /\
      spent t' = true /\ isinstance t' lex.Duration = false.
Proof.
  intros Hmarks.
  induction Hmarks as [|[m dm] marks Hm _ IH]; intros item t d Ht Hd.
  - by exists t, d.
  - cbn [fst] in Hm. cbn [app fmap list_fmap fst pitch_loop].
    rewrite apply_marks_cons.
    destruct m as [[] txt pos]; try done;
      cbn [isinstance lex.issubclass tcls bool_decide decide_rel orb negb];
      by apply IH.
Qed.

Lemma apply_marks_snoc (item : ItemObj) (marks : list token) (m : token) :
  apply_marks item (marks ++ [m])
  = (if isinstance (Some m) lex.Octave
     then set_octave (apply_marks item marks) m
     else if isinstance (Some m) lex.Accidental
     then set_accidental (apply_marks item marks) m
     else apply_marks item marks).
Proof. unfold apply_marks. by rewrite foldl_app. Qed.

Lemma last_filter_snoc {A} (P : A -> Prop) `{!forall x, Decision (P x)}
    (l : list A) (x : A) :
  last (filter P (l ++ [x]))
  = if decide (P x) then Some x else last (filter P l).
Proof.
  rewrite filter_app, filter_cons, filter_nil.
  destruct (decide (P x)); [by rewrite last_snoc | by rewrite app_nil_r].
Qed.

Lemma octave_not_accidental (m : token) :
  isinstance (Some m) lex.Octave = true ->
  isinstance (Some m) lex.Accidental = false.
Proof. destruct m as [[] ? ?]; done. Qed.

Lemma mark_step_agrees (item : ItemObj) (m : token) :
  is_Some (pitch item) -> pitch_agrees item ->
  (is_Some (pitch (set_octave item m)) /\ pitch_agrees (set_octave item m)) /\
  (is_Some (pitch (set_accidental item m))
   /\ pitch_agrees (set_accidental item m)).
Proof.
  unfold pitch_agrees. intros [p Hp]. rewrite Hp. intros (Ho & Ha & Hc).
  cbn. rewrite Hp. cbn. by repeat split.
Qed.

(** What a run of marks leaves on a note. *)
Lemma apply_marks_agrees (marks : list token) (item : ItemObj) :
  is_Some (pitch item) -> pitch_agrees item ->
  is_Some (pitch (apply_marks item marks)) /\
  pitch_agrees (apply_marks item marks).
Proof.
  intros Hp Ha. induction marks as [|m marks IH] using rev_ind; [done|].
  rewrite apply_marks_snoc. destruct IH as [IH1 IH2].
  destruct (mark_step_agrees (apply_marks item marks) m IH1 IH2) as [Ho Hacc].
  by repeat case_match.
Qed.

Lemma apply_marks_head (marks : list token) (item : ItemObj) :
  same_head (apply_marks item marks) item /\
  octavecheck_token (apply_marks item marks) = octavecheck_token item /\
  note <$> pitch (apply_marks item marks) = note <$> pitch item /\
  alter <$> pitch (apply_marks item marks) = alter <$> pitch item.
Proof.
  induction marks as [|m marks IH] using rev_ind; [done|].
  rewrite apply_marks_snoc.
  destruct IH as ((H1 & H2 & H3 & H4 & H5) & Hk & Hn & Hal).
  unfold same_head.
  repeat case_match; cbn; rewrite ?H1, ?H2, ?H3, ?H4, ?H5, ?Hk;
    (repeat split; try done);
    rewrite <- ?Hn, <- ?Hal; by destruct (pitch (apply_marks item marks)).
Qed.

Lemma apply_marks_octave_token (marks : list token) (item : ItemObj) :
  octave_token (apply_marks item marks)
  = match last (filter (fun m => isinstance (Some m) lex.Octave = true)
                  marks) with
    | Some o => Some o
    | None => octave_token item
    end.
Proof.
  induction marks as [|m marks IH] using rev_ind; [done|].
  rewrite apply_marks_snoc, last_filter_snoc.
  destruct (isinstance (Some m) lex.Octave) eqn:Ho.
  - by rewrite decide_True.
  - rewrite decide_False by done.
    by destruct (isinstance (Some m) lex.Accidental).
Qed.

Lemma apply_marks_accidental_token (marks : list token) (item : ItemObj) :
  accidental_token (apply_marks item marks)
  = match last (filter (fun m => isinstance (Some m) lex.Accidental = true)
                  marks) with
    | Some a => Some a
    | None => accidental_token item
    end.
Proof.
  induction marks as [|m marks IH] using rev_ind; [done|].
  rewrite apply_marks_snoc, last_filter_snoc.
  destruct (isinstance (Some m) lex.Octave) eqn:Ho.
  - rewrite (octave_not_accidental m Ho). by rewrite decide_False.
  - destruct (isinstance (Some m) lex.Accidental) eqn:Ha.
    + by rewrite decide_True.
    + by rewrite decide_False.
Qed.

Lemma truth_nonempty (x : token) :
  ttext x <> EmptyString -> truth (Some x) = true.
Proof.
  intros Hx. unfold truth. apply negb_true_iff. by apply String.eqb_neq.
Qed.

(** The end of the pitch tokens followed by the wait for a duration,
    over a run of duration tokens and blanks. *)
Lemma pitch_then_duration (P : LyPitch) (fuel : nat) (lang : string)
    (durs tail : list (token * nat)) :
  Forall (fun td => is_duration_or_space td.1 = true) durs ->
  Forall (fun td => ttext td.1 <> EmptyString) durs ->
  match tail with
  | [] => True
  | (h, _) :: _ => ends_note h = true /\ ttext h <> EmptyString
  end ->
  forall (item : ItemObj) (t : option token) (d d1 : nat),
    spent t = true -> isinstance t lex.Duration = false ->
    (wait_for_duration
       (pitch_loop item t d (durs ++ tail)).1.1
       (pitch_loop item t d (durs ++ tail)).1.2
       (pitch_loop item t d (durs ++ tail)).2).1.1
    = set_duration item
        {| dur_tokens :=
             filter (fun x => isinstance (Some x) lex.Duration = true)
               durs.*1 |}
    /\
    read_loop P (S fuel) lang
      (wait_for_duration
         (pitch_loop item t d (durs ++ tail)).1.1
         (pitch_loop item t d (durs ++ tail)).1.2
         (pitch_loop item t d (durs ++ tail)).2).1.2
      (wait_for_duration
         (pitch_loop item t d (durs ++ tail)).1.1
         (pitch_loop item t d (durs ++ tail)).1.2
         (pitch_loop item t d (durs ++ tail)).2).2
    = read P (S fuel)
        {| source := {| depth := d1; upcoming := tail |}; language := lang |}.
Proof.
  intros Hdurs Htext Htail.
  induction Hdurs as [|[x dx] durs Hx Hdurs IH]; intros item t d d1 Ht Hd.
  - cbn [app fmap list_fmap]. rewrite filter_nil.
    destruct tail as [|[h dh] rest]; cbn [pitch_loop fst snd].
    + unfold wait_for_duration. rewrite Hd, orb_false_r.
      destruct (truth t) eqn:Htr; cbn [negb].
      * cbn [fst snd]. split; [done|]. by apply read_loop_spent.
      * cbn [depth upcoming duration_loop].
        assert (Hds : match t with
                      | Some tok => if false then [tok] else []
                      | None => []
                      end = @nil token) by by destruct t.
        rewrite Hds. cbn [fst snd]. split; [done|]. by apply read_loop_spent.
    + destruct Htail as [Hend Hh].
      assert (Hcls : isinstance (Some h) lex.Octave = false /\
                     isinstance (Some h) lex.Accidental = false /\
                     isinstance (Some h) lex.OctaveCheck = false /\
                     isinstance (Some h) lex.Space = false /\
                     isinstance (Some h) lex.Duration = false)
        by (destruct h as [[] ? ?]; done).
      destruct Hcls as (-> & -> & -> & -> & Hhd). cbn [negb fst snd].
      unfold wait_for_duration. rewrite Hhd, (truth_nonempty h Hh).
      cbn [negb orb fst snd]. done.
  - cbn [fst] in Hx.
    apply Forall_cons_1 in Htext as [Hxt Htext]. cbn [fst] in Hxt.
    cbn [app pitch_loop fmap list_fmap fst]. rewrite filter_cons.
    assert (Hcls : isinstance (Some x) lex.Octave = false /\
                   isinstance (Some x) lex.Accidental = false /\
                   isinstance (Some x) lex.OctaveCheck = false /\
                   spent (Some x) = true)
      by (destruct x as [[] ? ?]; done).
    destruct Hcls as (-> & -> & -> & Hsp).
    destruct (isinstance (Some x) lex.Duration) eqn:Hxd.
    + assert (Hxs : isinstance (Some x) lex.Space = false)
        by (destruct x as [[] ? ?]; done).
      rewrite Hxs, decide_True by done. cbn [negb fst snd].
      unfold wait_for_duration. rewrite Hxd, (truth_nonempty x Hxt), orb_true_r.
      cbn [depth upcoming].
      assert (Htail' : match tail with
                       | [] => True
                       | (h, _) :: _ =>
                           isinstance (Some h) lex.Duration = false /\
                           isinstance (Some h) lex.Space = false
                       end).
      { destruct tail as [|[h dh] rest]; [done|]. destruct Htail as [He _].
        destruct h as [[] ? ?]; done. }
      destruct (duration_loop_run P fuel lang durs tail Hdurs Htail'
                  [x] (Some x) dx d1 Hsp) as [H1 H2].
      destruct (duration_loop [x] (Some x) dx (durs ++ tail)) as [[ds' t'] s'].
      cbn [fst snd] in *. by subst ds'.
    + cbn [orb] in Hx. unfold is_duration_or_space in Hx.
      rewrite Hxd in Hx. cbn [orb] in Hx. rewrite Hx, decide_False by done.
      cbn [negb]. by apply IH.
Qed.

Lemma option_match_id {A : Type} (o : option A) :
  match o with Some x => Some x | None => None end = o.
Proof. by destruct o. Qed.

(** One round of the [while] loop for a music item. *)
Lemma read_music_step (P : LyPitch) (fuel : nat) (lang : string)
    (tok : token) (d0 d : nat) (l : list (token * nat)) (item : ItemObj)
    (t1 : option token) (s1 : Source) :
  isinstance (Some tok) lex.MusicItem = true ->
  music_item P lang tok {| depth := d; upcoming := l |} = (Some item, t1, s1) ->
  read P (S fuel)
    {| source := {| depth := d0; upcoming := (tok, d) :: l |};
       language := lang |}
  = yield (Some (wait_for_duration item t1 s1).1.1)
      (read_loop P fuel lang (wait_for_duration item t1 s1).1.2
         (wait_for_duration item t1 s1).2).
Proof.
  intros Hmi Hm. unfold read. cbn [next source upcoming language read_loop].
  rewrite Hmi, Hm. by destruct (wait_for_duration item t1 s1) as [[? ?] ?].
Qed.

(** A note whose name resolves, followed by octave tokens, accidental
    tokens and blanks, then by duration tokens and blanks: the [Note]
    has the step and alteration of its name, the last octave token and
    its number (0 without one), the last accidental token, no octave
    check, and the duration tokens in their order as its duration; it
    is the first item [read] yields, and the items after it and the end
    of the run are those of reading the source from the token after
    them. *)
Theorem note_collects_marks_and_durations (P : LyPitch) (fuel : nat)
    (lang : string) (n : token) (r : Z * QArith_base.Q) (d0 dn : nat)
    (marks durs tail : list (token * nat)) :
  tcls n = lex.Note ->
  pitchReader P lang n = Some r ->
  Forall (fun td => is_mark td.1 = true) marks ->
  Forall (fun td => is_duration_or_space td.1 = true) durs ->
  Forall (fun td => ttext td.1 <> EmptyString) durs ->
  match tail with
  | [] => True
  | (h, _) :: _ => ends_note h = true /\ ttext h <> EmptyString
  end ->
  exists (item : ItemObj) (p : Pitch),
    read P (S (S fuel))
      {| source :=
           {| depth := d0; upcoming := (n, dn) :: marks ++ durs ++ tail |};
         language := lang |}
    = (item
       :: (read P (S fuel)
             {| source := {| depth := d0; upcoming := tail |};
                language := lang |}).1,
       (read P (S fuel)
          {| source := {| depth := d0; upcoming := tail |};
             language := lang |}).2) /\
    cls item = Note /\
    token_ item = Some n /\
    pitch item = Some p /\
    note p = r.1 /\
    alter p = r.2 /\
    octave_token item
    = last (filter (fun m => isinstance (Some m) lex.Octave = true) marks.*1) /\
    octave p
    = from_option octaveToNum 0%Z
        (last (filter (fun m => isinstance (Some m) lex.Octave = true)
                 marks.*1)) /\
    accidental_token item
    = last (filter (fun m => isinstance (Some m) lex.Accidental = true)
              marks.*1) /\
    accidental p
    = last (filter (fun m => isinstance (Some m) lex.Accidental = true)
              marks.*1) /\
    octavecheck_token item = None /\
    octavecheck p = None /\
    duration item
    = Some {| dur_tokens :=
                filter (fun x => isinstance (Some x) lex.Duration = true)
                  durs.*1 |}.
Proof.
  intros Hn Hr Hmarks Hdurs Htext Htail.
  set (item0 := set_pitch (new_item Note n) (Pitch_of r)).
  destruct (pitch_loop_marks marks (durs ++ tail) Hmarks item0 None dn
              eq_refl eq_refl) as (t' & d' & Hloop & Hsp & Hnd).
  set (item1 := apply_marks item0 marks.*1) in *.
  destruct (pitch_then_duration P fuel lang durs tail Hdurs Htext Htail
              item1 t' d' d0 Hsp Hnd) as [Hitem Hk].
  set (r1 := pitch_loop item1 t' d' (durs ++ tail)) in *.
  assert (Hm : music_item P lang n
                 {| depth := dn; upcoming := marks ++ durs ++ tail |}
               = (Some r1.1.1, r1.1.2, r1.2)).
  { unfold music_item. rewrite bool_decide_eq_true_2 by done. rewrite Hr.
    cbn [factory fst depth upcoming]. fold item0. rewrite Hloop. fold r1.
    by destruct r1 as [[? ?] ?]. }
  assert (Hmi : isinstance (Some n) lex.MusicItem = true)
    by (unfold isinstance; by rewrite Hn).
  rewrite (read_music_step _ _ _ _ _ _ _ _ _ _ Hmi Hm), Hitem, Hk.
  destruct (apply_marks_head marks.*1 item0)
    as ((Hc & Htok & _ & _ & _) & Hck & Hnote & Halter).
  destruct (apply_marks_agrees marks.*1 item0) as [[p Hp] Hagree];
    [by eexists | by repeat split |].
  fold item1 in Hc, Htok, Hck, Hnote, Halter, Hp, Hagree.
  pose proof (apply_marks_octave_token marks.*1 item0) as Hot.
  pose proof (apply_marks_accidental_token marks.*1 item0) as Hat.
  fold item1 in Hot, Hat.
  unfold pitch_agrees in Hagree. rewrite Hp in Hagree, Hnote, Halter.
  destruct Hagree as (Ho & Ha & Hoc).
  cbn in Hnote, Halter. injection Hnote as Hnote. injection Halter as Halter.
  assert (Hot' : octave_token item1
                 = last (filter (fun m => isinstance (Some m) lex.Octave = true)
                           marks.*1))
    by (rewrite Hot; apply option_match_id).
  assert (Hat' : accidental_token item1
                 = last (filter
                           (fun m => isinstance (Some m) lex.Accidental = true)
                           marks.*1))
    by (rewrite Hat; apply option_match_id).
  exists (set_duration item1
            {| dur_tokens :=
                 filter (fun x => isinstance (Some x) lex.Duration = true)
                   durs.*1 |}), p.
  cbn [cls token_ pitch octave_token accidental_token octavecheck_token
       duration set_duration].
  rewrite <- Hot', <- Hat'.
  repeat split; try done.
  - by rewrite Hoc, Hck.
Qed.

Lemma note_collects_marks_and_durations_witness :
  exists (item : ItemObj) (p : Pitch),
    read sample.ly_pitch 3
      {| source :=
           {| depth := 1;
              upcoming :=
                (sample.note_c, 1)
                :: [(sample.octave_up1, 1); (sample.reminder, 1);
                    (sample.octave_up2, 1)]
                ++ [(sample.blank, 1); (sample.dur_4, 1); (sample.dur_dot, 1)]
                ++ [(sample.bar_check, 1); (sample.rest_r, 1)] |};
         language := "nederlands" |}
    = (item
       :: (read sample.ly_pitch 2
             {| source :=
                  {| depth := 1;
                     upcoming := [(sample.bar_check, 1); (sample.rest_r, 1)] |};
                language := "nederlands" |}).1,
       (read sample.ly_pitch 2
          {| source :=
               {| depth := 1;
                  upcoming := [(sample.bar_check, 1); (sample.rest_r, 1)] |};
             language := "nederlands" |}).2) /\
    cls item = Note /\
    token_ item = Some sample.note_c /\
    pitch item = Some p /\
    note p = 0%Z /\
    alter p = (0 # 1)%Q /\
    octave_token item
    = last (filter (fun m => isinstance (Some m) lex.Octave = true)
              [(sample.octave_up1, 1); (sample.reminder, 1);
               (sample.octave_up2, 1)].*1) /\
    octave p
    = from_option octaveToNum 0%Z
        (last (filter (fun m => isinstance (Some m) lex.Octave = true)
                 [(sample.octave_up1, 1); (sample.reminder, 1);
                  (sample.octave_up2, 1)].*1)) /\
    accidental_token item
    = last (filter (fun m => isinstance (Some m) lex.Accidental = true)
              [(sample.octave_up1, 1); (sample.reminder, 1);
               (sample.octave_up2, 1)].*1) /\
    accidental p
    = last (filter (fun m => isinstance (Some m) lex.Accidental = true)
              [(sample.octave_up1, 1); (sample.reminder, 1);
               (sample.octave_up2, 1)].*1) /\
    octavecheck_token item = None /\
    octavecheck p = None /\
    duration item
    = Some {| dur_tokens :=
                filter (fun x => isinstance (Some x) lex.Duration = true)
                  [(sample.blank, 1); (sample.dur_4, 1);
                   (sample.dur_dot, 1)].*1 |}.
Proof.
  apply (note_collects_marks_and_durations sample.ly_pitch 1 "nederlands"
           sample.note_c (0%Z, (0 # 1)%Q) 1 1
           [(sample.octave_up1, 1); (sample.reminder, 1);
            (sample.octave_up2, 1)]
           [(sample.blank, 1); (sample.dur_4, 1); (sample.dur_dot, 1)]
           [(sample.bar_check, 1); (sample.rest_r, 1)]);
    try reflexivity.
  - repeat constructor.
  - repeat constructor.
  - repeat constructor; discriminate.
  - split; [reflexivity | discriminate].
Defined.

(** The note of the witness has octave 2, the number of its last octave
    token. *)
Example note_with_marks_example :
  (fun item => octave <$> pitch item) <$>
    head (read sample.ly_pitch 3
            (init (sample.flat
                     [sample.note_c; sample.octave_up1; sample.reminder;
                      sample.octave_up2; sample.blank; sample.dur_4]))).1
  = Some (Some 2%Z).
Proof. reflexivity. Qed.

(** ** One item for each music item and comment *)

Lemma filter_at_hand_idle (t : option token) (s : Source) :
  idle t = true ->
  filter (fun x => makes_item x = true) (at_hand t s)
  = filter (fun x => makes_item x = true) (upcoming s).*1.
Proof.
  destruct t as [x|]; [|done]. cbn [idle from_option at_hand].
  intros Hx. apply negb_true_iff in Hx. rewrite filter_cons.
  by rewrite decide_False by (by rewrite Hx).
Qed.

(** The loops pass over no token for which an item is to be built. *)
Lemma pitch_loop_keeps (l : list (token * nat)) :
  forall (item : ItemObj) (t : option token) (d : nat),
    idle t = true ->
    filter (fun x => makes_item x = true)
      (at_hand (pitch_loop item t d l).1.2 (pitch_loop item t d l).2)
    = filter (fun x => makes_item x = true) l.*1.
Proof.
  induction l as [|[tok d'] l IH]; intros item t d Ht; cbn [pitch_loop].
  - by rewrite filter_at_hand_idle.
  - cbn [fmap list_fmap fst]. cbv zeta.
    assert (Hidle : isinstance (Some tok) lex.Octave
                    || isinstance (Some tok) lex.Accidental
                    || isinstance (Some tok) lex.Space = true ->
                    idle (Some tok) = true)
      by (destruct tok as [[] ? ?]; done).
    assert (Hskip : idle (Some tok) = true ->
              filter (fun x => makes_item x = true) (tok :: l.*1)
              = filter (fun x => makes_item x = true) l.*1).
    { intros Hi. apply (filter_at_hand_idle (Some tok)
                          {| depth := d'; upcoming := l |} Hi). }
    destruct (isinstance (Some tok) lex.Octave) eqn:Ho; cbv iota.
    { rewrite IH by (by apply Hidle). by rewrite Hskip by (by apply Hidle). }
    destruct (isinstance (Some tok) lex.Accidental) eqn:Ha; cbv iota;
      [rewrite IH by (by apply Hidle); by rewrite Hskip by (by apply Hidle)|].
    destruct (isinstance (Some tok) lex.OctaveCheck) eqn:Hc; cbv iota; [done|].
    destruct (isinstance (Some tok) lex.Space) eqn:Hs; cbn [negb]; cbv iota;
      [|done].
    rewrite IH by (by apply Hidle). by rewrite Hskip by (by apply Hidle).
Qed.

Lemma duration_loop_keeps (l : list (token * nat)) :
  forall (ds : list token) (t : option token) (d : nat),
    idle t = true ->
    filter (fun x => makes_item x = true)
      (at_hand (duration_loop ds t d l).1.2 (duration_loop ds t d l).2)
    = filter (fun x => makes_item x = true) l.*1.
Proof.
  induction l as [|[tok d'] l IH]; intros ds t d Ht; cbn [duration_loop].
  - by rewrite filter_at_hand_idle.
  - cbn [fmap list_fmap fst]. cbv zeta.
    assert (Hidle : isinstance (Some tok) lex.Duration
                    || isinstance (Some tok) lex.Space = true ->
                    idle (Some tok) = true)
      by (destruct tok as [[] ? ?]; done).
    assert (Hskip : idle (Some tok) = true ->
              filter (fun x => makes_item x = true) (tok :: l.*1)
              = filter (fun x => makes_item x = true) l.*1).
    { intros Hi. apply (filter_at_hand_idle (Some tok)
                          {| depth := d'; upcoming := l |} Hi). }
    destruct (isinstance (Some tok) lex.Duration) eqn:Hd; cbv iota;
      [rewrite IH by (by apply Hidle); by rewrite Hskip by (by apply Hidle)|].
    destruct (isinstance (Some tok) lex.Space) eqn:Hs; cbn [negb]; cbv iota;
      [|done].
    rewrite IH by (by apply Hidle). by rewrite Hskip by (by apply Hidle).
Qed.

Lemma wait_for_duration_keeps (item : ItemObj) (t : option token)
    (s : Source) :
  Forall (fun x => ttext x <> EmptyString) (at_hand t s) ->
  filter (fun x => makes_item x = true)
    (at_hand (wait_for_duration item t s).1.2 (wait_for_duration item t s).2)
  = filter (fun x => makes_item x = true) (at_hand t s).
Proof.
  intros Htext. unfold wait_for_duration.
  destruct (negb (truth t) || isinstance t lex.Duration) eqn:Hc; [|done].
  assert (Hi : idle t = true).
  { destruct t as [x|]; [|done].
    apply Forall_cons_1 in Htext as [Hx _].
    rewrite (truth_nonempty x Hx) in Hc. cbn [negb orb] in Hc.
    destruct x as [[] ? ?]; done. }
  match goal with
  | |- context [duration_loop ?ds t (depth s) (upcoming s)] =>
      pose proof (duration_loop_keeps (upcoming s) ds t (depth s) Hi) as Hk;
      destruct (duration_loop ds t (depth s) (upcoming s)) as [[ds' t'] s']
  end.
  cbn [fst snd] in *. by rewrite Hk, filter_at_hand_idle.
Qed.

Lemma music_item_keeps (P : LyPitch) (lang : string) (tok : token)
    (s : Source) (item : ItemObj) (t1 : option token) (s1 : Source) :
  isinstance (Some tok) lex.MusicItem = true ->
  music_item P lang tok s = (Some item, t1, s1) ->
  cls item = item_class_of tok /\
  filter (fun x => makes_item x = true) (at_hand t1 s1)
  = filter (fun x => makes_item x = true) (upcoming s).*1.
Proof.
  intros Hmi. unfold music_item. case_bool_decide as Hn.
  - destruct (pitchReader P lang tok) as [r|]; [|done].
    set (item0 := set_pitch (factory Note tok false s).1 (Pitch_of r)).
    pose proof (pitch_loop_keeps (upcoming s) item0 None (depth s) eq_refl)
      as Hk.
    pose proof (pitch_loop_same_head (upcoming s) item0 None (depth s))
      as (Hc & _).
    destruct (pitch_loop item0 None (depth s) (upcoming s))
      as [[item' t'] s'].
    intros [= <- <- <-]. cbn [fst snd] in *.
    split; [|done]. rewrite Hc. unfold item_class_of. by rewrite Hn.
  - destruct tok as [[] txt pos]; try done; cbn; by intros [= <- <- <-].
Qed.

Lemma plain_suffix (P : LyPitch) (lang : string) (l1 l2 : list token) :
  l1 `suffix_of` l2 -> plain P lang l2 -> plain P lang l1.
Proof.
  intros [k ->] (H1 & H2 & H3). unfold plain, resolves in *.
  apply Forall_app in H1 as [_ H1]. apply Forall_app in H2 as [_ H2].
  by apply Forall_app in H3 as [_ H3].
Qed.

Lemma dispatch_plain (tok : token) (s : Source) :
  opens_construct tok = false ->
  isinstance (Some tok) lex.MusicItem = false ->
  dispatch (Some tok) s
  = (if isinstance (Some tok) lex.Comment
     then Some (new_item Comment tok) else None, s) /\
  makes_item tok = isinstance (Some tok) lex.Comment /\
  item_class_of tok = Comment.
Proof. destruct tok as [[] txt pos]; done. Qed.

(** The items of a finished run, by the tokens at hand at its start. *)
Lemma read_loop_items_in_order (P : LyPitch) (lang : string) (fuel : nat) :
  forall (t : option token) (s : Source),
    plain P lang (at_hand t s) ->
    (read_loop P fuel lang t s).2 = StopIteration ->
    (fun item => (token_ item, cls item)) <$> (read_loop P fuel lang t s).1
    = (fun x => (Some x, item_class_of x))
      <$> filter (fun x => makes_item x = true) (at_hand t s).
Proof.
  induction fuel as [|fuel IH]; intros t s Hplain Hend; [done|].
  cbn [read_loop] in *.
  assert (Hnext : forall s1 : Source,
            plain P lang (upcoming s1).*1 ->
            (match next s1 with
             | Some (t', s2) => read_loop P fuel lang (Some t') s2
             | None => ([], StopIteration)
             end).2 = StopIteration ->
            (fun item => (token_ item, cls item))
            <$> (match next s1 with
                 | Some (t', s2) => read_loop P fuel lang (Some t') s2
                 | None => ([], StopIteration)
                 end).1
            = (fun x => (Some x, item_class_of x))
              <$> filter (fun x => makes_item x = true) (upcoming s1).*1).
  { intros s1 Hp He. unfold next in *.
    destruct (upcoming s1) as [|[t' d'] l'] eqn:Hup; [done|].
    by apply IH. }
  destruct t as [tok|]; [|by apply Hnext].
  destruct (isinstance (Some tok) lex.MusicItem) eqn:Hmi.
  - destruct Hplain as (Ho & Htext & Hres).
    destruct (music_item_some P lang tok s) as (item & t1 & s1 & Hm & Hs1).
    { by apply Forall_cons_1 in Hres as [? _]. }
    rewrite Hm in *.
    destruct (music_item_spec _ _ _ _ _ _ _ Hm) as (_ & Htok & _).
    destruct (music_item_keeps _ _ _ _ _ _ _ Hmi Hm) as [Hcls Hk1].
    pose proof (wait_for_duration_suffix item t1 s1) as Hs2.
    pose proof (wait_for_duration_keeps item t1 s1) as Hk2.
    destruct (wait_for_duration_spec item t1 s1) as (ds & Hitem & _).
    destruct (wait_for_duration item t1 s1) as [[item' t2] s2].
    cbn [fst snd] in *. subst item'.
    rewrite yield_snd in Hend. cbn [yield fst fmap list_fmap].
    assert (Hsuf : at_hand t1 s1 `suffix_of` at_hand (Some tok) s)
      by (etrans; [exact Hs1 | apply suffix_cons_r; done]).
    assert (Hp1 : plain P lang (at_hand t1 s1))
      by (by apply (plain_suffix P lang _ _ Hsuf)).
    rewrite IH; [| by apply (plain_suffix P lang _ _ Hs2) | done].
    rewrite Hk2 by apply Hp1. rewrite Hk1.
    cbn [at_hand]. rewrite filter_cons.
    rewrite decide_True by (unfold makes_item; by rewrite Hmi).
    cbn [fmap list_fmap set_duration token_ cls]. by rewrite Htok, Hcls.
  - assert (Hplain' := Hplain). destruct Hplain as (Ho & Htext & Hres).
    apply Forall_cons_1 in Ho as [Hotok _].
    destruct (dispatch_plain tok s Hotok Hmi) as (Hd & Hmk & Hcls).
    rewrite Hd in *. rewrite yield_snd in Hend.
    assert (Hp : plain P lang (upcoming s).*1)
      by (apply (plain_suffix P lang _ _ (at_hand_suffix (Some tok) s));
          exact Hplain').
    specialize (Hnext s Hp Hend).
    cbn [at_hand]. rewrite filter_cons, Hmk.
    destruct (isinstance (Some tok) lex.Comment) eqn:Hc.
    + rewrite decide_True by done. cbn [yield fst fmap list_fmap].
      rewrite Hnext. by rewrite Hcls.
    + rewrite decide_False by done. cbn [yield]. exact Hnext.
Qed.

(** In a source without Scheme values, block comments and strings,
    whose tokens are not empty and whose notes have names of the
    reader's language, [read] returns, and it yields exactly one item
    for each music item and each comment of the source, in the order of
    the source: the item has that token as its [token], and its class
    is the one the class of the token calls for. *)
Theorem one_item_per_token_in_order (P : LyPitch) (self : Reader) :
  Forall (fun x => opens_construct x = false) (upcoming (source self)).*1 ->
  Forall (fun x => ttext x <> EmptyString) (upcoming (source self)).*1 ->
  resolves P (language self) (upcoming (source self)).*1 ->
  exists items : list ItemObj,
    (forall fuel : nat,
       2 * length (upcoming (source self)) < fuel ->
       read P fuel self = (items, StopIteration)) /\
    (fun item => (token_ item, cls item)) <$> items
    = (fun x => (Some x, item_class_of x))
      <$> filter (fun x => makes_item x = true) (upcoming (source self)).*1.
Proof.
  intros Hopen Htext Hres. unfold read, next.
  destruct (upcoming (source self)) as [|[t d] l] eqn:Hup.
  - by exists [].
  - set (s := {| depth := d; upcoming := l |}).
    set (n := S (2 * length ((t, d) :: l))).
    assert (Hplain : plain P (language self) (at_hand (Some t) s))
      by done.
    assert (Hn : (read_loop P n (language self) (Some t) s).2 = StopIteration).
    { apply read_loop_ends; [|done].
      unfold steps, n, s. cbn [at_hand upcoming length].
      rewrite length_fmap. lia. }
    exists (read_loop P n (language self) (Some t) s).1. split.
    + intros fuel Hfuel.
      rewrite (read_loop_more_fuel P (language self) n)
        by (done || (unfold n; lia)).
      rewrite <- Hn. by destruct (read_loop P n (language self) (Some t) s).
    + by apply read_loop_items_in_order.
Qed.

Lemma one_item_per_token_in_order_witness :
  exists items : list ItemObj,
    (forall fuel : nat,
       2 * length
             (upcoming
                (source
                   (init (sample.flat
                            [sample.note_c; sample.check_up1; sample.dur_4;
                             sample.blank; sample.line_comment;
                             sample.rest_r; sample.bar_check]))))
       < fuel ->
       read sample.ly_pitch fuel
         (init (sample.flat
                  [sample.note_c; sample.check_up1; sample.dur_4;
                   sample.blank; sample.line_comment;
                   sample.rest_r; sample.bar_check]))
       = (items, StopIteration)) /\
    (fun item => (token_ item, cls item)) <$> items
    = (fun x => (Some x, item_class_of x))
      <$> filter (fun x => makes_item x = true)
            (upcoming
               (source
                  (init (sample.flat
                           [sample.note_c; sample.check_up1; sample.dur_4;
                            sample.blank; sample.line_comment;
                            sample.rest_r; sample.bar_check])))).*1.
Proof.
  apply (one_item_per_token_in_order sample.ly_pitch
           (init (sample.flat
                    [sample.note_c; sample.check_up1; sample.dur_4;
                     sample.blank; sample.line_comment;
                     sample.rest_r; sample.bar_check]))).
  - repeat constructor.
  - repeat constructor; discriminate.
  - repeat constructor; try discriminate. intros _. by eexists.
Defined.

(** ** The language and the notes *)

Lemma same_reading_suffix (P P' : LyPitch) (lang lang' : string)
    (l1 l2 : list token) :
  l1 `suffix_of` l2 ->
  same_reading P P' lang lang' l2 -> same_reading P P' lang lang' l1.
Proof. intros [k ->] H. by apply Forall_app in H as [_ H]. Qed.

Lemma music_item_same_reading (P P' : LyPitch) (lang lang' : string)
    (tok : token) (s : Source) :
  (tcls tok = lex.Note -> pitchReader P lang tok = pitchReader P' lang' tok) ->
  music_item P lang tok s = music_item P' lang' tok s.
Proof.
  intros H. unfold music_item. case_bool_decide as Hn; [|done].
  by rewrite (H Hn).
Qed.

Lemma read_loop_same_reading (P P' : LyPitch) (lang lang' : string)
    (fuel : nat) :
  forall (t : option token) (s : Source),
    same_reading P P' lang lang' (at_hand t s) ->
    read_loop P fuel lang t s = read_loop P' fuel lang' t s.
Proof.
  induction fuel as [|fuel IH]; intros t s Hsame; [done|].
  cbn [read_loop].
  assert (Hnext : forall s1 : Source,
            (upcoming s1).*1 `suffix_of` at_hand t s ->
            match next s1 with
            | Some (t', s2) => read_loop P fuel lang (Some t') s2
            | None => ([], StopIteration)
            end
            = match next s1 with
              | Some (t', s2) => read_loop P' fuel lang' (Some t') s2
              | None => ([], StopIteration)
              end).
  { intros s1 Hsuf. unfold next.
    destruct (upcoming s1) as [|[t' d'] l'] eqn:Hup; [done|].
    apply IH. by apply (same_reading_suffix P P' lang lang' _ _ Hsuf). }
  destruct t as [tok|]; [|by apply Hnext].
  destruct (isinstance (Some tok) lex.MusicItem).
  - rewrite <- (music_item_same_reading P P' lang lang' tok s)
      by (by apply Forall_cons_1 in Hsame as [? _]).
    pose proof (music_item_suffix P lang tok s) as Hs1.
    destruct (music_item P lang tok s) as [[[item|] t1] s1];
      cbn [fst snd] in Hs1.
    + pose proof (wait_for_duration_suffix item t1 s1) as Hs2.
      destruct (wait_for_duration item t1 s1) as [[item' t2] s2].
      cbn [fst snd] in Hs2. rewrite IH; [done|].
      apply (same_reading_suffix P P' lang lang' _ (at_hand (Some tok) s));
        [by etrans | done].
    + apply IH. by apply (same_reading_suffix P P' lang lang' _ _ Hs1).
  - destruct (dispatch_run (Some tok) s) as [Hsuf _].
    destruct (dispatch (Some tok) s) as [oi s1]. cbn [fst snd] in Hsuf.
    rewrite Hnext; [done|].
    etrans; [exact Hsuf | apply at_hand_suffix].
Qed.

(** [read] depends on the pitch table and on the language only through
    the [Note] tokens of the source: two readers over the same source,
    whose languages (in whatever tables) give each of its [Note] tokens
    the same reading, yield the same items and end the same way; so a
    source without notes reads the same in every language. *)
Theorem read_depends_on_notes_only (P P' : LyPitch) (lang lang' : string)
    (fuel : nat) (src : Source) :
  same_reading P P' lang lang' (upcoming src).*1 ->
  read P fuel {| source := src; language := lang |}
  = read P' fuel {| source := src; language := lang' |}.
Proof.
  intros Hsame. unfold read, next. cbn [source language].
  destruct (upcoming src) as [|[t d] l]; [done|].
  by apply read_loop_same_reading.
Qed.

Lemma read_depends_on_notes_only_witness :
  read sample.ly_pitch 9
    {| source :=
         sample.flat [sample.note_c; sample.octave_up1; sample.dur_4;
                      sample.rest_r; sample.line_comment];
       language := "nederlands" |}
  = read sample.ly_pitch 9
      {| source :=
           sample.flat [sample.note_c; sample.octave_up1; sample.dur_4;
                        sample.rest_r; sample.line_comment];
         language := "english" |}.
Proof.
  apply (read_depends_on_notes_only sample.ly_pitch sample.ly_pitch
           "nederlands" "english" 9
           (sample.flat [sample.note_c; sample.octave_up1; sample.dur_4;
                         sample.rest_r; sample.line_comment])).
  repeat constructor; try discriminate.
Defined.

(** ** The class hierarchy of the items *)

(** Two levels are enough: following the base classes further finds no
    other base class. *)
Lemma issubclass_upto_stable (n : nat) (c base : ItemClass) :
  issubclass_upto (2 + n) c base = item_issubclass c base.
Proof.
  unfold item_issubclass.
  destruct c, base; cbn [issubclass_upto bases existsb Nat.add];
    rewrite ?bool_decide_eq_true_2 by done;
    rewrite ?bool_decide_eq_false_2 by done;
    cbn [orb]; try reflexivity;
    destruct n; reflexivity.
Qed.

(** The items [read] yields, seen through the class hierarchy: each is
    an instance of [Item] and none is an instance of [Container]; an
    item is an instance of [Durable] exactly when it has a duration; and
    [read] gives a duration or a pitch only to an item whose class has a
    default for that attribute. *)
Theorem yielded_items_in_class_hierarchy (P : LyPitch) (fuel : nat)
    (self : Reader) :
  Forall
    (fun item =>
       item_isinstance item Item = true /\
       item_isinstance item Container = false /\
       (item_isinstance item Durable = true <-> is_Some (duration item)) /\
       (is_Some (duration item) -> has_default (cls item) "duration" = true) /\
       (is_Some (pitch item) -> has_default (cls item) "pitch" = true))
    (read P fuel self).1.
Proof.
  apply read_Forall.
  - intros tok s item t1 s1 _ Hm.
    destruct (music_item_spec _ _ _ _ _ _ _ Hm) as (Hc & _).
    destruct (music_item_attributes _ _ _ _ _ _ _ Hm) as (_ & Hshape).
    destruct (wait_for_duration_spec item t1 s1) as (ds & -> & _).
    unfold item_isinstance.
    cbn [cls pitch duration set_duration].
    assert (Hcases : cls item = Note \/ cls item = Rest \/ cls item = Skip
                     \/ cls item = Q) by elem_of_list.
    destruct Hshape as [(Hn & _) | (Hn & Hp & _)].
    + rewrite Hn. by repeat split.
    + rewrite Hp.
      destruct Hcases as [H | [H | [H | H]]]; rewrite H;
        repeat split; try done; by intros [? ?].
  - intros t s item Hd.
    destruct (dispatch_spec _ _ _ Hd) as (tok & _ & _ & _ & _ & _ & Hc & _).
    destruct (dispatch_attributes _ _ _ Hd) as ((Hp & _) & Hdur & _).
    unfold item_isinstance. rewrite Hp, Hdur.
    assert (Hcases : cls item = SchemeValue \/ cls item = Comment
                     \/ cls item = StringValue) by elem_of_list.
    destruct Hcases as [H | [H | H]]; rewrite H;
      repeat split; try done; by intros [? ?].
Qed.

(** ** The file names of the exported help *)

Module export_help_facts.
Import export_help.

Lemma append_cons (c : ascii) (a b : string) :
  String.append (String c a) b = String c (String.append a b).
Proof. reflexivity. Qed.

Lemma length_append (a b : string) :
  String.length (String.append a b) = String.length a + String.length b.
Proof.
  induction a as [|c a IH]; [done|].
  rewrite append_cons. cbn [String.length]. by rewrite IH.
Qed.

Lemma dots_append (a b : string) :
  dots (String.append a b) = dots a + dots b.
Proof.
  induction a as [|c a IH]; [done|].
  rewrite append_cons. cbn [dots]. rewrite IH. lia.
Qed.

Lemma replace_dot_append (new a b : string) :
  replace_dot new (String.append a b)
  = String.append (replace_dot new a) (replace_dot new b).
Proof.
  induction a as [|c a IH]; [done|].
  rewrite append_cons. cbn [replace_dot]. rewrite IH.
  destruct (Ascii.eqb c "."); [by rewrite append_assoc | done].
Qed.

Lemma replace_dot_no_dot (new s : string) :
  dots s = 0 -> replace_dot new s = s.
Proof.
  induction s as [|c s IH]; [done|]. cbn [dots replace_dot].
  destruct (Ascii.eqb c "."); [done|]. intros H. by rewrite IH.
Qed.

Lemma length_replace_dot (new s : string) :
  String.length (replace_dot new s) + dots s
  = String.length s + dots s * String.length new.
Proof.
  induction s as [|c s IH]; [done|]. cbn [dots replace_dot String.length].
  destruct (Ascii.eqb c ".").
  - rewrite length_append. lia.
  - cbn [String.length]. lia.
Qed.

(** A string with a dot, cut at its first dot. *)
Lemma first_dot (s : string) :
  dots s <> 0 ->
  exists pre post : string,
    dots pre = 0 /\ s = String.append pre (String "." post).
Proof.
  induction s as [|c s IH]; [done|]. cbn [dots].
  destruct (Ascii.eqb c ".") eqn:Hc.
  - apply Ascii.eqb_eq in Hc as ->. intros _. by exists EmptyString, s.
  - intros H. destruct IH as (pre & post & Hpre & ->); [lia|].
    exists (String c pre), post. split; [|done]. cbn [dots]. by rewrite Hc.
Qed.

Lemma append_same_length (a1 a2 b1 b2 : string) :
  String.length a1 = String.length a2 ->
  String.append a1 b1 = String.append a2 b2 -> a1 = a2.
Proof.
  revert a2. induction a1 as [|c a1 IH]; intros [|c2 a2]; try done.
  rewrite !append_cons. cbn [String.length]. intros Hl [= -> H].
  f_equal. apply IH; [lia | done].
Qed.

Lemma make_filename_length (name l : string) :
  l <> "C" ->
  String.length (make_filename name (Some l))
  = String.length name + dots name * (String.length l + 1).
Proof.
  intros Hl. unfold make_filename.
  apply String.eqb_neq in Hl. rewrite Hl.
  pose proof (length_replace_dot (String "." (String.append l ".")) name)
    as H.
  cbn [String.length] in H. rewrite length_append in H.
  cbn [String.length] in H. lia.
Qed.

(** [make_filename] puts the language between the stem and the
    extension of a file name with one dot; a name without a dot is
    returned as it is, whatever the language (the docstring asks for a
    name with an extension); and in general the language is put in at
    every dot of the name, so that the name grows by the length of the
    language plus one for each of its dots. *)
Theorem make_filename_adds_language :
  (forall (name l : string),
     dots name = 0 -> make_filename name (Some l) = name) /\
  (forall (stem ext l : string),
     l <> "C" -> dots stem = 0 -> dots ext = 0 ->
     make_filename (String.append stem (String "." ext)) (Some l)
     = String.append stem
         (String "." (String.append l (String "." ext)))) /\
  (forall (name l : string),
     l <> "C" ->
     String.length (make_filename name (Some l))
     = String.length name + dots name * (String.length l + 1)).
Proof.
  split; [|split].
  - intros name l Hn. unfold make_filename.
    destruct (String.eqb l "C"); [done | by apply replace_dot_no_dot].
  - intros stem ext l Hl Hs He. unfold make_filename.
    apply String.eqb_neq in Hl. rewrite Hl.
    rewrite replace_dot_append, (replace_dot_no_dot _ stem Hs).
    cbn [replace_dot]. rewrite Ascii.eqb_refl.
    rewrite (replace_dot_no_dot _ ext He).
    rewrite append_cons, append_assoc. done.
  - apply make_filename_length.
Qed.

Lemma make_filename_adds_language_witness :
  make_filename (String.append "uguide" (String "." "html")) (Some "nl")
  = String.append "uguide"
      (String "." (String.append "nl" (String "." "html"))).
Proof.
  apply (proj1 (proj2 make_filename_adds_language) "uguide" "html" "nl");
    [discriminate | reflexivity | reflexivity].
Defined.

(** For a name with a dot, two different languages never give the same
    file name (the untranslated ["C"] included): the pages written for
    the languages do not overwrite each other. *)
Theorem make_filename_injective (name l1 l2 : string) :
  dots name <> 0 ->
  l1 <> l2 ->
  make_filename name (Some l1) <> make_filename name (Some l2).
Proof.
  intros Hdot Hne Heq. apply Hne.
  destruct (String.eqb l1 "C") eqn:H1; destruct (String.eqb l2 "C") eqn:H2.
  - apply String.eqb_eq in H1, H2. congruence.
  - apply String.eqb_neq in H2. apply (f_equal String.length) in Heq.
    rewrite (make_filename_length name l2 H2) in Heq.
    unfold make_filename in Heq. rewrite H1 in Heq. nia.
  - apply String.eqb_neq in H1. apply (f_equal String.length) in Heq.
    rewrite (make_filename_length name l1 H1) in Heq.
    unfold make_filename in Heq. rewrite H2 in Heq. nia.
  - assert (Hl : String.length l1 = String.length l2).
    { apply String.eqb_neq in H1, H2.
      apply (f_equal String.length) in Heq.
      rewrite (make_filename_length name l1 H1),
        (make_filename_length name l2 H2) in Heq. nia. }
    destruct (first_dot name Hdot) as (pre & post & Hpre & ->).
    unfold make_filename in Heq. rewrite H1, H2 in Heq.
    rewrite !replace_dot_append, !(replace_dot_no_dot _ pre Hpre) in Heq.
    apply (inj (String.append pre)) in Heq.
    cbn [replace_dot] in Heq. rewrite Ascii.eqb_refl in Heq.
    rewrite !append_cons in Heq. injection Heq as Heq.
    rewrite !append_assoc in Heq.
    by apply (append_same_length _ _ _ _ Hl Heq).
Qed.

Lemma make_filename_injective_witness :
  make_filename "uguide.html" (Some "C")
  <> make_filename "uguide.html" (Some "nl").
Proof.
  apply (make_filename_injective "uguide.html" "C" "nl"); discriminate.
Defined.

End export_help_facts.

(** ** The numbers of nameless documents *)

Module document_facts.
Import document.

Lemma other_nums_bound a self nums l d m :
  other_nums a self = Some nums ->
  l ∈ documents a -> l <> self ->
  heap a !! l = Some d -> num d = Some m ->
  m <= max_list nums.
Proof.
  unfold other_nums. intros Hn Hl Hne Hd Hm.
  apply max_list_elem_of_le.
  apply mapM_Some in Hn.
  assert (Hin : l ∈ filter (fun l => l <> self) (documents a)).
  { apply list_elem_of_filter. done. }
  apply list_elem_of_lookup in Hin as [i Hi].
  destruct (Forall2_lookup_l _ _ _ _ _ Hn Hi) as (y & Hy & Hly).
  rewrite Hd in Hly. cbn in Hly. rewrite Hm in Hly. injection Hly as <-.
  by eapply list_elem_of_lookup_2.
Qed.

Lemma setUrl_spec a self u a' :
  setUrl a self u = Some a' ->
  documents a' = documents a /\
  (forall l, l <> self -> heap a' !! l = heap a !! l) /\
  exists n,
    heap a' !! self = Some {| url := default EmptyString u; num := Some n |} /\
    (isEmpty (default EmptyString u) = true <-> n <> 0) /\
    (forall l d m, l ∈ documents a -> l <> self ->
       heap a !! l = Some d -> num d = Some m -> n <> 0 -> m < n).
Proof.
  unfold setUrl. intros H.
  destruct (heap a !! self) as [d0|] eqn:Hself; [|done]. cbn in H.
  destruct (isEmpty (default EmptyString u)) eqn:He.
  - destruct (other_nums a self) as [nums|] eqn:Hn; [|done]. cbn in H.
    injection H as <-. cbn. split; [done|]. split.
    { intros l Hl. by rewrite lookup_insert_ne. }
    eexists. split; [by rewrite lookup_insert_eq|]. split.
    { split; [lia|done]. }
    intros l d m Hl Hne Hd Hm _.
    pose proof (other_nums_bound _ _ _ _ _ _ Hn Hl Hne Hd Hm). lia.
  - cbn in H. injection H as <-. cbn. split; [done|]. split.
    { intros l Hl. by rewrite lookup_insert_ne. }
    exists 0. split; [by rewrite lookup_insert_eq|]. split.
    { split; [done|lia]. }
    intros; lia.
Qed.

Lemma setUrl_numbered a self u a' L :
  numbered (heap a) (documents a) ->
  setUrl a self u = Some a' ->
  NoDup L -> (forall l, l ∈ L -> l = self \/ l ∈ documents a) ->
  numbered (heap a') L.
Proof.
  intros (Hnd & Hnum & Hdist) Hset HL Hsub.
  destruct (setUrl_spec _ _ _ _ Hset) as (Hdocs & Hother & n & Hn & Hiff & Hgt).
  split; [done|]. split.
  - intros l Hl. destruct (decide (l = self)) as [->|Hne].
    + eexists _, n. split; [exact Hn|]. by cbn.
    + rewrite Hother by done. apply Hnum.
      destruct (Hsub l Hl); [done|done].
  - intros l1 l2 d1 d2 m Hl1 Hl2 Hd1 Hd2 Hm1 Hm2 Hm.
    destruct (decide (l1 = self)) as [->|Hne1];
      destruct (decide (l2 = self)) as [->|Hne2]; [done| | |].
    + rewrite Hn in Hd1. injection Hd1 as <-. cbn in Hm1. injection Hm1 as ->.
      rewrite Hother in Hd2 by done.
      destruct (Hsub l2 Hl2) as [?|Hin]; [done|].
      pose proof (Hgt _ _ _ Hin Hne2 Hd2 Hm2 Hm). lia.
    + rewrite Hn in Hd2. injection Hd2 as <-. cbn in Hm2. injection Hm2 as ->.
      rewrite Hother in Hd1 by done.
      destruct (Hsub l1 Hl1) as [?|Hin]; [done|].
      pose proof (Hgt _ _ _ Hin Hne1 Hd1 Hm1 Hm). lia.
    + rewrite Hother in Hd1, Hd2 by done.
      destruct (Hsub l1 Hl1) as [?|Hin1]; [done|].
      destruct (Hsub l2 Hl2) as [?|Hin2]; [done|].
      by eapply Hdist.
Qed.

Lemma numbered_dom h L l : numbered h L -> l ∈ L -> l ∈ dom h.
Proof.
  intros (_ & Hnum & _) Hl. destruct (Hnum l Hl) as (d & n & Hd & _).
  apply elem_of_dom. by eexists.
Qed.

Lemma numbered_fresh h L d :
  numbered h L -> numbered (<[fresh (dom h) := d]> h) L.
Proof.
  intros Hn.
  assert (Hfr : forall l, l ∈ L -> l <> fresh (dom h)).
  { intros l Hl ->. apply (is_fresh (dom h)). by apply (numbered_dom h L). }
  destruct Hn as (Hnd & Hnum & Hdist). split; [done|]. split.
  - intros l Hl. rewrite lookup_insert_ne by (apply not_eq_sym; by apply Hfr).
    by apply Hnum.
  - intros l1 l2 d1 d2 m Hl1 Hl2.
    rewrite !lookup_insert_ne by (apply not_eq_sym; by apply Hfr).
    by apply Hdist.
Qed.

Lemma init_numbered a u self a' :
  numbered (heap a) (documents a) ->
  init a u = Some (self, a') ->
  numbered (heap a') (documents a').
Proof.
  unfold init. intros Hn H.
  match type of H with context [setUrl ?a1 ?s ?u] =>
    destruct (setUrl a1 s u) as [a2|] eqn:Hset end; [|done].
  cbn in H. injection H as <- <-. cbn.
  assert (Hfr : fresh (dom (heap a)) ∉ documents a).
  { intros Hl. apply (is_fresh (dom (heap a))).
    by apply (numbered_dom (heap a) (documents a)). }
  destruct (setUrl_spec _ _ _ _ Hset) as (Hdocs & _). cbn in Hdocs.
  rewrite Hdocs.
  eapply setUrl_numbered; [|exact Hset| |].
  - cbn. by apply numbered_fresh.
  - apply NoDup_app. destruct Hn as (Hnd & _). split; [done|].
    split; [|apply NoDup_singleton].
    intros l Hl ->%list_elem_of_singleton. done.
  - cbn. intros l [Hl| ->%list_elem_of_singleton]%elem_of_app; auto.
Qed.

Lemma remove_first_spec x l l' :
  remove_first x l = Some l' ->
  x ∈ l /\ (forall y, y ∈ l' -> y ∈ l) /\ (NoDup l -> NoDup l' /\ x ∉ l').
Proof.
  revert l'. induction l as [|y l IH]; intros l' H; [done|].
  cbn in H. destruct (decide (x = y)) as [->|Hne].
  - injection H as <-. split; [left|]. split; [by right|].
    intros Hnd. by apply NoDup_cons in Hnd as [? ?].
  - destruct (remove_first x l) as [l0|]; [|done]. cbn in H. injection H as <-.
    destruct (IH _ eq_refl) as (Hin & Hsub & Hnd). split; [by right|]. split.
    + intros z [->|Hz]%elem_of_cons; [left|right; by apply Hsub].
    + intros [Hy Hl]%NoDup_cons. destruct (Hnd Hl) as [Hnd' Hx]. split.
      * apply NoDup_cons. split; [|done]. intros Hy'. by apply Hy, Hsub.
      * intros [?|?]%elem_of_cons; done.
Qed.

Lemma close_numbered a self a' :
  numbered (heap a) (documents a) ->
  close a self = Some a' ->
  numbered (heap a') (documents a').
Proof.
  unfold close. intros (Hnd & Hnum & Hdist) H.
  destruct (remove_first self (documents a)) as [l|] eqn:Hr; [|done].
  cbn in H. injection H as <-. cbn.
  destruct (remove_first_spec _ _ _ Hr) as (_ & Hsub & Hnd').
  split; [by apply Hnd'|]. split.
  - intros y Hy. by apply Hnum, Hsub.
  - intros l1 l2 d1 d2 m Hl1 Hl2. apply Hdist; by apply Hsub.
Qed.

Lemma step_numbered a op a' :
  numbered (heap a) (documents a) ->
  step a op = Some a' ->
  numbered (heap a') (documents a').
Proof.
  intros Hn H. destruct op as [u|self u|self]; cbn in H.
  - destruct (init a u) as [[self a2]|] eqn:Hi; [|done]. cbn in H.
    injection H as <-. by eapply init_numbered.
  - destruct (setUrl_spec _ _ _ _ H) as (Hdocs & _). rewrite Hdocs.
    eapply setUrl_numbered; [done|exact H|by destruct Hn|auto].
  - by eapply close_numbered.
Qed.

Lemma run_snoc a ops op :
  run a (ops ++ [op]) = run a ops ≫= fun a => step a op.
Proof. unfold run. by rewrite foldl_app. Qed.

Lemma run_numbered (ops : list Op) (a : App) :
  run start ops = Some a -> numbered (heap a) (documents a).
Proof.
  revert a. induction ops as [|op ops IH] using rev_ind; intros a H.
  - injection H as <-. cbn. split; [apply NoDup_nil_2|].
    split; intros; exfalso; by eapply not_elem_of_nil.
  - rewrite run_snoc in H. destruct (run start ops) as [a0|]; [|done].
    cbn in H. eapply step_numbered; [|exact H]. by apply IH.
Qed.

(** Whatever documents were created, renamed and closed since the
    start: no document is twice in [app.documents], every document of
    the list has a number, which is 0 exactly when the document has a
    url, and two different nameless documents of the list never have
    the same number. *)
Theorem nameless_documents_numbered_apart (ops : list Op) (a : App) :
  run start ops = Some a ->
  NoDup (documents a) /\
  (forall l, l ∈ documents a ->
     exists d n, heap a !! l = Some d /\ num d = Some n /\
                 (isEmpty (url d) = true <-> n <> 0)) /\
  (forall l1 l2 d1 d2,
     l1 ∈ documents a -> l2 ∈ documents a -> l1 <> l2 ->
     heap a !! l1 = Some d1 -> heap a !! l2 = Some d2 ->
     isEmpty (url d1) = true -> isEmpty (url d2) = true ->
     num d1 <> num d2).
Proof.
  intros H. destruct (run_numbered _ _ H) as (Hnd & Hnum & Hdist).
  split; [done|]. split; [done|].
  intros l1 l2 d1 d2 Hl1 Hl2 Hne Hd1 Hd2 He1 He2 Heq.
  destruct (Hnum l1 Hl1) as (d & n & Hd & Hn & Hiff).
  rewrite Hd1 in Hd. injection Hd as <-.
  apply Hne. eapply (Hdist l1 l2 d1 d2 n); try done.
  - by rewrite <- Heq.
  - by apply Hiff.
Qed.

Lemma nameless_documents_numbered_apart_witness :
  ((fun a => (fun l => heap a !! l ≫= num) <$> documents a)
     <$> run start sample.session)
  = Some [Some 3; Some 2; Some 4] /\
  from_option (fun a => NoDup (documents a)) False (run start sample.session).
Proof.
  split; [vm_compute; reflexivity|].
  destruct (run start _) as [a|] eqn:E; [|vm_compute in E; discriminate].
  exact (proj1 (nameless_documents_numbered_apart _ a E)).
Defined.

Lemma other_nums_is_Some (h : gmap nat Doc) a self :
  numbered h (documents a) ->
  (forall l, l ∈ documents a -> l <> self -> heap a !! l = h !! l) ->
  is_Some (other_nums a self).
Proof.
  intros (_ & Hnum & _) Hh. unfold other_nums. apply mapM_is_Some.
  apply Forall_forall. intros l [Hne Hl]%list_elem_of_filter.
  destruct (Hnum l Hl) as (d & n & Hd & Hn & _).
  unfold compose. rewrite Hh by done. rewrite Hd. cbn. by rewrite Hn.
Qed.

Lemma setUrl_is_Some (h : gmap nat Doc) a self u :
  numbered h (documents a) ->
  (forall l, l ∈ documents a -> l <> self -> heap a !! l = h !! l) ->
  is_Some (heap a !! self) ->
  is_Some (setUrl a self u).
Proof.
  intros Hn Hh [d Hd]. unfold setUrl. rewrite Hd. cbn.
  destruct (isEmpty _); [|by eexists].
  destruct (other_nums_is_Some h a self Hn Hh) as [nums ->]. by eexists.
Qed.

Lemma filter_other_absent (x : nat) (l : list nat) :
  x ∉ l -> filter (fun y => y <> x) l = l.
Proof.
  induction l as [|y l IH]; [done|].
  intros [Hne Hl]%not_elem_of_cons.
  rewrite filter_cons_True by done. by rewrite IH.
Qed.

(** In a list without repetitions, [list.remove] leaves the other
    elements. *)
Lemma remove_first_filter (x : nat) (l : list nat) :
  NoDup l -> x ∈ l ->
  remove_first x l = Some (filter (fun y => y <> x) l).
Proof.
  induction l as [|y l IH]; [by intros _ ?%not_elem_of_nil|].
  intros [Hy Hnd]%NoDup_cons Hx. cbn [remove_first].
  destruct (decide (x = y)) as [->|Hne].
  - rewrite filter_cons_False by (intros H; by apply H).
    by rewrite filter_other_absent.
  - apply elem_of_cons in Hx as [?|Hx]; [done|].
    rewrite IH by done.
    by rewrite filter_cons_True by (by apply not_eq_sym).
Qed.

(** In a state reached from the start, by creating documents, changing
    urls and closing documents, a document of [app.documents] can be
    given another url and can be closed: [setUrl] finds a number on each
    of the other documents of the list, sets the url and leaves the list
    as it is; [close] finds the document in the list, and afterwards the
    list holds the other documents, in their order, and no longer this
    one. *)
Theorem listed_document_renamed_or_closed (ops : list Op) (a : App)
    (self : nat) :
  run start ops = Some a ->
  self ∈ documents a ->
  (forall u : option string,
     exists (a' : App) (n : nat),
       setUrl a self u = Some a' /\
       documents a' = documents a /\
       heap a' !! self
       = Some {| url := default EmptyString u; num := Some n |}) /\
  (exists a' : App,
     close a self = Some a' /\
     heap a' = heap a /\
     documents a' = filter (fun l => l <> self) (documents a) /\
     self ∉ documents a').
Proof.
  intros H Hself. pose proof (run_numbered _ _ H) as Hn. split.
  - intros u.
    destruct (setUrl_is_Some (heap a) a self u Hn) as [a' Ha']; [done| |].
    { destruct Hn as (_ & Hnum & _).
      destruct (Hnum self Hself) as (d & _ & -> & _). by eexists. }
    destruct (setUrl_spec _ _ _ _ Ha') as (Hdocs & _ & n & Hheap & _).
    by exists a', n.
  - unfold close. destruct Hn as (Hnd & _).
    rewrite (remove_first_filter self (documents a) Hnd Hself). cbn.
    eexists. split; [reflexivity|]. cbn. split; [done|]. split; [done|].
    intros [Hne _]%list_elem_of_filter. by apply Hne.
Qed.

Lemma listed_document_renamed_or_closed_witness :
  (documents <$> run start sample.session) = Some [1; 2; 3] /\
  (documents
     <$> (run start sample.session ≫= fun a => setUrl a 2 (Some "b.ly")))
  = Some [1; 2; 3] /\
  (documents <$> (run start sample.session ≫= fun a => close a 2))
  = Some [1; 3].
Proof.
  split; [vm_compute; reflexivity|].
  destruct (run start sample.session) as [a|] eqn:E;
    [|vm_compute in E; discriminate].
  assert (Hd : documents a = [1; 2; 3]).
  { assert (Hd : documents <$> Some a = Some [1; 2; 3])
      by (rewrite <- E; vm_compute; reflexivity).
    by injection Hd. }
  assert (Hin : 2 ∈ documents a) by (rewrite Hd; right; left).
  destruct (listed_document_renamed_or_closed sample.session a 2 E Hin)
    as [Hset (a2 & Hclose & _ & Hdocs & _)].
  destruct (Hset (Some "b.ly")) as (a1 & n & Hs & Hdocs1 & _).
  cbn. rewrite Hs, Hclose. cbn. rewrite Hdocs1, Hdocs, Hd. split; reflexivity.
Defined.

End document_facts.
